(******************************************************************************)
(* Spec2Rocq.v - shallow embedding of the CYK recognizer of App.jsx           *)
(*                                                                            *)
(*   parseGrammarFromText  (App.jsx 80-149)   grammar compiler                *)
(*   cykWithPointers       (App.jsx 152-198)  recognizer with backpointers    *)
(*   buildParseTree        (App.jsx 200-214)  parse tree reconstruction       *)
(*   cykAlgorithm          (App.jsx 251-306)  trace recognizer                *)
(*   tokenization          (App.jsx 529, 641-643)                             *)
(*                                                                            *)
(* JavaScript strings are sequences of UTF-16 code units, modelled as         *)
(* list N.  JavaScript objects used as maps are association lists in         *)
(* property-creation order; Sets and Maps are insertion-ordered lists.        *)
(******************************************************************************)

From Stdlib Require Import List Bool Arith Lia NArith String Ascii.
Import ListNotations.

(******************************************************************************)
(* JavaScript strings                                                          *)
(******************************************************************************)

Definition jstr := list N.

Definition jeqb (a b : jstr) : bool :=
  if list_eq_dec N.eq_dec a b then true else false.

(** ASCII literals as code-unit sequences. *)
Fixpoint js (s : string) : jstr :=
  match s with
  | EmptyString => []
  | String c r => N_of_ascii c :: js r
  end.

(** U+2192, the Unicode arrow: one UTF-16 code unit. *)
Definition uarrow : N := 8594.

(** The class [\s] of JavaScript regular expressions, which is also the set
    stripped by [String.prototype.trim] (WhiteSpace and LineTerminator). *)
Definition is_ws (c : N) : bool :=
  ((c =? 9) || (c =? 10) || (c =? 11) || (c =? 12) || (c =? 13) || (c =? 32)
   || (c =? 160) || (c =? 5760) || ((8192 <=? c) && (c <=? 8202))
   || (c =? 8232) || (c =? 8233) || (c =? 8239) || (c =? 8287)
   || (c =? 12288) || (c =? 65279))%N.

Fixpoint drop_ws (s : jstr) : jstr :=
  match s with
  | c :: r => if is_ws c then drop_ws r else s
  | [] => []
  end.

(** [s.trim()] *)
Definition trim (s : jstr) : jstr := rev (drop_ws (rev (drop_ws s))).

(** [s.replace(/\s+/g, "")] *)
Definition remove_ws (s : jstr) : jstr := filter (fun c => negb (is_ws c)) s.

Fixpoint prefixb (p s : jstr) : bool :=
  match p, s with
  | [], _ => true
  | a :: p', b :: s' => (a =? b)%N && prefixb p' s'
  | _ :: _, [] => false
  end.

(** [s.indexOf(pat)]; [None] stands for [-1]. *)
Fixpoint index_of_from (pat s : jstr) (i : nat) : option nat :=
  if prefixb pat s then Some i
  else match s with
       | [] => None
       | _ :: r => index_of_from pat r (S i)
       end.

Definition index_of (pat s : jstr) : option nat := index_of_from pat s 0.

(** [s.split(sep)] for a one-code-unit separator string. *)
Fixpoint split_on_aux (sep : N) (cur : jstr) (s : jstr) : list jstr :=
  match s with
  | [] => [rev cur]
  | c :: r => if (c =? sep)%N then rev cur :: split_on_aux sep [] r
              else split_on_aux sep (c :: cur) r
  end.

Definition split_on (sep : N) (s : jstr) : list jstr := split_on_aux sep [] s.

(** [s.split(/\s+/)]: every maximal run of whitespace is one separator;
    leading and trailing runs give empty first and last pieces, and the
    empty string gives [[""]]. *)
Fixpoint split_ws_aux (cur : jstr) (inws : bool) (s : jstr) : list jstr :=
  match s with
  | [] => [rev cur]
  | c :: r =>
      if is_ws c then
        (if inws then split_ws_aux cur true r else rev cur :: split_ws_aux [] true r)
      else split_ws_aux (c :: cur) false r
  end.

Definition split_ws (s : jstr) : list jstr := split_ws_aux [] false s.

(** [s.split('')]: the code units. *)
Definition split_chars (s : jstr) : list jstr := map (fun c => [c]) s.

(** [s.includes(' ')] *)
Definition includes_space (s : jstr) : bool := existsb (fun c => (c =? 32)%N) s.

(** Truthiness of a string: only the empty string is falsy. *)
Definition is_empty (s : jstr) : bool :=
  match s with [] => true | _ => false end.

(** [.filter(Boolean)] on strings. *)
Definition filter_nonempty (l : list jstr) : list jstr :=
  filter (fun x => negb (is_empty x)) l.

(** Decimal rendering of a number inside a template string. *)
Fixpoint dec_aux (fuel n : nat) (acc : jstr) : jstr :=
  match fuel with
  | 0 => acc
  | S f => if n <? 10 then N.of_nat (48 + n) :: acc
           else dec_aux f (n / 10) (N.of_nat (48 + n mod 10) :: acc)
  end.

Definition dec (n : nat) : jstr := dec_aux (S n) n [].

(******************************************************************************)
(* JavaScript objects, Sets and Maps                                           *)
(******************************************************************************)

Section Assoc.
Context {V : Type}.

Fixpoint assoc_get (k : jstr) (m : list (jstr * V)) : option V :=
  match m with
  | [] => None
  | (k', v) :: r => if jeqb k k' then Some v else assoc_get k r
  end.

Fixpoint assoc_set (k : jstr) (v : V) (m : list (jstr * V)) : list (jstr * V) :=
  match m with
  | [] => [(k, v)]
  | (k', v') :: r => if jeqb k k' then (k', v) :: r else (k', v') :: assoc_set k v r
  end.

End Assoc.

(** [set.add(x)] on an insertion-ordered Set of strings. *)
Definition set_add (x : jstr) (s : list jstr) : list jstr :=
  if existsb (jeqb x) s then s else s ++ [x].

(** [set.has(x)] *)
Definition set_has (s : list jstr) (x : jstr) : bool := existsb (jeqb x) s.

(** Canonical array-index keys ("0", "1", ..., below 2^32 - 1), which
    [Object.keys] lists first, in ascending numeric order. *)
Definition is_digit (c : N) : bool := ((48 <=? c) && (c <=? 57))%N.

Definition digits_value (s : jstr) : N :=
  fold_left (fun acc c => acc * 10 + (c - 48))%N s 0%N.

Definition is_array_index (s : jstr) : bool :=
  match s with
  | [c] => is_digit c
  | c :: r => ((49 <=? c) && (c <=? 57) && forallb is_digit r
              && (digits_value s <? 4294967295))%N
  | [] => false
  end.

Fixpoint insert_by_value (k : jstr) (l : list jstr) : list jstr :=
  match l with
  | [] => [k]
  | k' :: r => if (digits_value k <=? digits_value k')%N then k :: l
               else k' :: insert_by_value k r
  end.

Definition sort_by_value (l : list jstr) : list jstr :=
  fold_right insert_by_value [] l.

(** [Object.keys(obj)] for an object whose own properties, in creation order,
    are the entries of [m]. *)
Definition object_keys {V} (m : list (jstr * V)) : list jstr :=
  let ks := map fst m in
  sort_by_value (filter is_array_index ks)
  ++ filter (fun k => negb (is_array_index k)) ks.

(** Names inherited by every object literal from [Object.prototype]; reading
    [obj[name]] yields a truthy non-array value for each of them. *)
Definition proto_names : list jstr :=
  map js ["constructor"; "__defineGetter__"; "__defineSetter__"; "hasOwnProperty";
          "__lookupGetter__"; "__lookupSetter__"; "isPrototypeOf";
          "propertyIsEnumerable"; "toString"; "valueOf"; "__proto__";
          "toLocaleString"]%string.

(******************************************************************************)
(* Grammar and the grammar compiler parseGrammarFromText (App.jsx 80-149)     *)
(******************************************************************************)

(** A production is an array of symbols; [rules] is the object mapping a
    variable to its productions, own properties in creation order. *)
Definition production := list jstr.

Record grammar := mkGrammar {
  variables : list jstr;
  terminals : list jstr;
  startSymbol : jstr;
  rules : list (jstr * list production)
}.

(** The mutable locals of [parseGrammarFromText]: [rules], [variablesSet],
    [terminalsSet] and [startSymbol]. *)
Record pstate := mkPState {
  ps_rules : list (jstr * list production);
  ps_vars : list jstr;
  ps_terms : list jstr;
  ps_start : jstr
}.

Definition with_rules (st : pstate) r :=
  mkPState r (ps_vars st) (ps_terms st) (ps_start st).
Definition with_vars (st : pstate) v :=
  mkPState (ps_rules st) v (ps_terms st) (ps_start st).
Definition with_terms (st : pstate) t :=
  mkPState (ps_rules st) (ps_vars st) t (ps_start st).
Definition with_start (st : pstate) x :=
  mkPState (ps_rules st) (ps_vars st) (ps_terms st) x.

(** [if (!rules[left]) rules[left] = [];] : an own property, and also an
    inherited [Object.prototype] member, is truthy and left alone. *)
Definition ensure_key (left : jstr) (r : list (jstr * list production)) :=
  match assoc_get left r with
  | Some _ => r
  | None => if existsb (jeqb left) proto_names then r else r ++ [(left, [])]
  end.

(** [rules[left].push(p)]; [None] is the TypeError thrown when [rules[left]]
    is not an own array (an inherited [Object.prototype] member). *)
Definition push_rule (left : jstr) (p : production) (st : pstate) : option pstate :=
  match assoc_get left (ps_rules st) with
  | Some ps => Some (with_rules st (assoc_set left (ps ++ [p]) (ps_rules st)))
  | None => None
  end.

(** The quoted-terminal regular expression of App.jsx 106: the whole string
    is a double quote, one or more code units other than a double quote, and
    a double quote; the result is the captured inner text. *)
Definition quoted (s : jstr) : option jstr :=
  match s with
  | 34%N :: rest =>
      match rev rest with
      | 34%N :: rin =>
          let inner := rev rin in
          if negb (is_empty inner) && forallb (fun c => negb (c =? 34)%N) inner
          then Some inner else None
      | _ => None
      end
  | _ => None
  end.

(** [/^[a-z]$/.test(sym)] *)
Definition is_lower_letter (s : jstr) : bool :=
  match s with [c] => ((97 <=? c) && (c <=? 122))%N | _ => false end.

(** [/^[A-Z]{2}$/.test(sym)], returning [sym[0]] and [sym[1]]. *)
Definition upper_pair (s : jstr) : option (jstr * jstr) :=
  match s with
  | [b; c] => if ((65 <=? b) && (b <=? 90) && (65 <=? c) && (c <=? 90))%N
              then Some ([b], [c]) else None
  | _ => None
  end.

(** The body of [.forEach((prod) => { ... })] (App.jsx 103-139). *)
Definition process_prod (left : jstr) (prod : jstr) (st : pstate) : option pstate :=
  let trimmed := trim prod in
  match quoted trimmed with
  | Some token =>
      push_rule left [token] (with_terms st (set_add token (ps_terms st)))
  | None =>
      match filter_nonempty (split_ws trimmed) with
      | [sym] =>
          if is_lower_letter sym then
            push_rule left [sym] (with_terms st (set_add sym (ps_terms st)))
          else match upper_pair sym with
               | Some (B, C) =>
                   push_rule left [B; C]
                     (with_vars st (set_add C (set_add B (ps_vars st))))
               | None =>
                   push_rule left [sym] (with_vars st (set_add sym (ps_vars st)))
               end
      | [B; C] =>
          push_rule left [B; C] (with_vars st (set_add C (set_add B (ps_vars st))))
      | _ => Some st
      end
  end.

Fixpoint process_prods (left : jstr) (prods : list jstr) (st : pstate) : option pstate :=
  match prods with
  | [] => Some st
  | p :: r =>
      match process_prod left p st with
      | Some st' => process_prods left r st'
      | None => None
      end
  end.

Definition arrow_ascii : jstr := js "->".

(** [splitter]: the index of the first ["->"], or, when there is none, of
    the first Unicode arrow (App.jsx 90-92). *)
Definition line_splitter (line : jstr) : option nat :=
  let arrowIndex := index_of arrow_ascii line in
  match arrowIndex with None => index_of [uarrow] line | Some i => Some i end.

(** App.jsx 96-139, for the computed [left] and [right]. *)
Definition add_line (idx : nat) (left right : jstr) (st : pstate) : option pstate :=
  let st1 := if (idx =? 0) && negb (is_empty left) then with_start st left else st in
  let st2 := with_rules st1 (ensure_key left (ps_rules st1)) in
  let st3 := with_vars st2 (set_add left (ps_vars st2)) in
  process_prods left (map trim (split_on 124%N right)) st3.

(** The body of [lines.forEach((line, idx) => { ... })] (App.jsx 89-140). *)
Definition process_line (idx : nat) (line : jstr) (st : pstate) : option pstate :=
  match line_splitter line with
  | None => Some st
  | Some splitter =>
      let left := remove_ws (trim (firstn splitter line)) in
      let right := trim (skipn (splitter + 2) line) in
      add_line idx left right st
  end.

Fixpoint process_lines (idx : nat) (lines : list jstr) (st : pstate) : option pstate :=
  match lines with
  | [] => Some st
  | l :: r =>
      match process_line idx l st with
      | Some st' => process_lines (S idx) r st'
      | None => None
      end
  end.

(** The non-empty trimmed lines of the grammar text. *)
Definition grammar_lines (text : jstr) : list jstr :=
  filter (fun l => negb (is_empty l)) (map trim (split_on 10%N text)).

Definition init_pstate : pstate := mkPState [] [] [] (js "S").

(** [parseGrammarFromText(text)]; [None] is a thrown TypeError. *)
Definition parseGrammarFromText (text : jstr) : option grammar :=
  match process_lines 0 (grammar_lines text) init_pstate with
  | Some st => Some (mkGrammar (ps_vars st) (ps_terms st) (ps_start st) (ps_rules st))
  | None => None
  end.

(******************************************************************************)
(* The recognizer cykWithPointers (App.jsx 152-198)                           *)
(******************************************************************************)

(** [grammar.rules[A]] for a key [A] of [Object.keys(grammar.rules)]. *)
Definition get_rules (g : grammar) (A : jstr) : list production :=
  match assoc_get A (rules g) with Some ps => ps | None => [] end.

(** Backpointer records [{type: 'terminal', token}] and
    [{type: 'binary', left, right, split}]. *)
Inductive bp :=
| BpTerminal (token : jstr)
| BpBinary (left right : jstr) (split : nat).

(** [m.has(A) || m.set(A, []); m.get(A).push(r)] on an insertion-ordered Map. *)
Definition map_push (A : jstr) (r : bp) (m : list (jstr * list bp)) :=
  match assoc_get A m with
  | Some rs => assoc_set A (rs ++ [r]) m
  | None => m ++ [(A, [r])]
  end.

(** The n-by-n arrays [table] (of Sets) and [back] (of Maps), indexed as
    [table[i][j]]. *)
Definition table := nat -> nat -> list jstr.
Definition backs := nat -> nat -> list (jstr * list bp).

Definition upd {X} (f : nat -> nat -> X) (i j : nat) (v : X) : nat -> nat -> X :=
  fun a b => if (a =? i) && (b =? j) then v else f a b.

Record cstate := mkCState { tbl : table; bk : backs }.

(** [table[i][j].add(A); back[i][j] ... push(r)] *)
Definition record_cell (i j : nat) (A : jstr) (r : bp) (s : cstate) : cstate :=
  mkCState (upd (tbl s) i j (set_add A (tbl s i j)))
           (upd (bk s) i j (map_push A r (bk s i j))).

(** Body of the diagonal loop for one production [prod] of [A]. *)
Definition diag_prod (i : nat) (tok : jstr) (A : jstr) (s : cstate) (prod : production) :=
  match prod with
  | [p0] => if jeqb p0 tok then record_cell i i A (BpTerminal tok) s else s
  | _ => s
  end.

(** [for (i ...) { const tok = tokens[i]; Object.keys(...).forEach(...) }] *)
Definition diag_step (tokens : list jstr) (g : grammar) (s : cstate) (i : nat) :=
  let tok := nth i tokens [] in
  fold_left (fun s A => fold_left (diag_prod i tok A) (get_rules g A) s)
            (object_keys (rules g)) s.

(** Body of the upper-triangle loop for split [k] and one production. *)
Definition bin_prod (i j k : nat) (A : jstr) (s : cstate) (prod : production) :=
  match prod with
  | [B; C] =>
      if set_has (tbl s i k) B && set_has (tbl s (k + 1) j) C
      then record_cell i j A (BpBinary B C k) s else s
  | _ => s
  end.

(** [for (let k = i; k < j; k++) Object.keys(...).forEach(...)] *)
Definition cell_step (g : grammar) (i j : nat) (s : cstate) : cstate :=
  fold_left (fun s k =>
      fold_left (fun s A => fold_left (bin_prod i j k A) (get_rules g A) s)
                (object_keys (rules g)) s)
    (seq i (j - i)) s.

(** [for (let len = 2; len <= n; len++) for (let i = 0; i <= n - len; i++)] *)
Definition upper_step (n : nat) (g : grammar) (s : cstate) : cstate :=
  fold_left (fun s len =>
      fold_left (fun s i => cell_step g i (i + len - 1) s) (seq 0 (n - len + 1)) s)
    (seq 2 (n - 1)) s.

(** Both fill phases, from a given initial table. *)
Definition cyk_fill (tokens : list jstr) (g : grammar) (s : cstate) : cstate :=
  upper_step (List.length tokens) g (fold_left (diag_step tokens g) (seq 0 (List.length tokens)) s).

(** The freshly allocated arrays: every cell an empty Set / Map. *)
Definition empty_cstate : cstate := mkCState (fun _ _ => []) (fun _ _ => []).

(** The n-by-n array of arrays holding a cell function. *)
Definition materialize {X} (n : nat) (f : nat -> nat -> X) : list (list X) :=
  map (fun i => map (fun j => f i j) (seq 0 n)) (seq 0 n).

Record cyk_result := mkResult {
  accepted : bool;
  res_table : list (list (list jstr));
  res_back : list (list (list (jstr * list bp)))
}.

Definition cykWithPointers (tokens : list jstr) (g : grammar) : cyk_result :=
  let n := List.length tokens in
  if n =? 0 then mkResult false [] []
  else
    let s := cyk_fill tokens g empty_cstate in
    mkResult (set_has (tbl s 0 (n - 1)) (startSymbol g))
             (materialize n (tbl s)) (materialize n (bk s)).

(******************************************************************************)
(* buildParseTree (App.jsx 200-214)                                           *)
(******************************************************************************)

(** [{label}], [{label, child: {label: token}}] and [{label, left, right}]. *)
Inductive ptree :=
| Bare (label : jstr)
| Leaf (label : jstr) (token : jstr)
| Node (label : jstr) (l r : ptree).

(** [back[i][j]]; [None] is the TypeError of indexing outside the arrays. *)
Definition cell_at {X} (m : list (list X)) (i j : nat) : option X :=
  match nth_error m i with Some row => nth_error row j | None => None end.

(** The inner [choose]; [fuel] bounds the recursion depth, which the source
    bounds by the span length. [None]: an exception, or fuel exhausted. *)
Fixpoint choose (back : list (list (list (jstr * list bp)))) (fuel : nat)
    (A : jstr) (i j : nat) : option ptree :=
  match fuel with
  | 0 => None
  | S f =>
      match cell_at back i j with
      | None => None
      | Some m =>
          match assoc_get A m with
          | None | Some [] => Some (Bare A)
          | Some (BpTerminal tok :: _) => Some (Leaf A tok)
          | Some (BpBinary B C k :: _) =>
              match choose back f B i k with
              | None => None
              | Some l =>
                  match choose back f C (k + 1) j with
                  | None => None
                  | Some r => Some (Node A l r)
                  end
              end
          end
      end
  end.

(** [buildParseTree(grammar, tokens, back)]: [Some None] is [null],
    [Some (Some t)] a tree, [None] an exception. *)
Definition buildParseTree (g : grammar) (tokens : list jstr)
    (back : list (list (list (jstr * list bp)))) : option (option ptree) :=
  let n := List.length tokens in
  let S := startSymbol g in
  if n =? 0 then Some None
  else match cell_at back 0 (n - 1) with
       | None => None
       | Some m =>
           match assoc_get S m with
           | None => Some None
           | Some _ =>
               match choose back n S 0 (n - 1) with
               | Some t => Some (Some t)
               | None => None
               end
           end
       end.

(******************************************************************************)
(* The trace recognizer cykAlgorithm (App.jsx 251-306)                        *)
(******************************************************************************)

Record tstate := mkTState { ttbl : table; steps : list jstr }.

(** [table[i][j].add(variable); steps.push(msg)] *)
Definition record_step (i j : nat) (A : jstr) (msg : jstr) (s : tstate) : tstate :=
  mkTState (upd (ttbl s) i j (set_add A (ttbl s i j))) (steps s ++ [msg]).

(** [`Cell[${i}][${i}]: '${char}' can be derived from ${variable}`] *)
Definition diag_msg (i : nat) (c A : jstr) : jstr :=
  js "Cell[" ++ dec i ++ js "][" ++ dec i ++ js "]: '" ++ c
  ++ js "' can be derived from " ++ A.

(** [`Cell[${i}][${j}]: ${variable} → ${B}${C} (from [${i}][${k}] and
    [${k + 1}][${j}])`] *)
Definition bin_msg (i j k : nat) (A B C : jstr) : jstr :=
  js "Cell[" ++ dec i ++ js "][" ++ dec j ++ js "]: " ++ A ++ [32%N; uarrow; 32%N]
  ++ B ++ C ++ js " (from [" ++ dec i ++ js "][" ++ dec k ++ js "] and ["
  ++ dec (k + 1) ++ js "][" ++ dec j ++ js "])".

Definition tdiag_prod (i : nat) (c : jstr) (A : jstr) (s : tstate) (prod : production) :=
  match prod with
  | [p0] => if jeqb p0 c then record_step i i A (diag_msg i c A) s else s
  | _ => s
  end.

Definition tdiag_step (word : list jstr) (g : grammar) (s : tstate) (i : nat) :=
  let c := nth i word [] in
  fold_left (fun s A => fold_left (tdiag_prod i c A) (get_rules g A) s)
            (object_keys (rules g)) s.

Definition tbin_prod (i j k : nat) (A : jstr) (s : tstate) (prod : production) :=
  match prod with
  | [B; C] =>
      if set_has (ttbl s i k) B && set_has (ttbl s (k + 1) j) C
      then record_step i j A (bin_msg i j k A B C) s else s
  | _ => s
  end.

Definition tcell_step (g : grammar) (i j : nat) (s : tstate) : tstate :=
  fold_left (fun s k =>
      fold_left (fun s A => fold_left (tbin_prod i j k A) (get_rules g A) s)
                (object_keys (rules g)) s)
    (seq i (j - i)) s.

Definition tupper_step (n : nat) (g : grammar) (s : tstate) : tstate :=
  fold_left (fun s len =>
      fold_left (fun s i => tcell_step g i (i + len - 1) s) (seq 0 (n - len + 1)) s)
    (seq 2 (n - 1)) s.

Definition tcyk_fill (word : list jstr) (g : grammar) (s : tstate) : tstate :=
  tupper_step (List.length word) g (fold_left (tdiag_step word g) (seq 0 (List.length word)) s).

Definition empty_tstate : tstate := mkTState (fun _ _ => []) [].

Record trace_result := mkTrace {
  t_accepted : bool;
  t_table : list (list (list jstr));
  t_steps : list jstr
}.

(** [cykAlgorithm(word, grammar)]; a string [word] is its list of one-unit
    strings [word[i]]. *)
Definition cykAlgorithm (word : list jstr) (g : grammar) : trace_result :=
  let n := List.length word in
  if n =? 0 then mkTrace false [] []
  else
    let s := tcyk_fill word g empty_tstate in
    mkTrace (set_has (ttbl s 0 (n - 1)) (startSymbol g))
            (materialize n (ttbl s)) (steps s).

(******************************************************************************)
(* Tokenization (App.jsx 529 and 641-643)                                     *)
(******************************************************************************)

(** Simulator tab: [simWord.includes(' ') ? simWord.trim().split(/\s+/)
    : simWord.trim().split('')]. *)
Definition tokenize_sim (s : jstr) : list jstr :=
  if includes_space s then split_ws (trim s) else split_chars (trim s).

(** Personal Grammar Checker tab: [pgcSentence.trim().split(/\s+/)]. *)
Definition tokenize_pgc (s : jstr) : list jstr := split_ws (trim s).

(******************************************************************************)
(* The "Generate" handlers of the PGC and Simulator tabs (App.jsx 525-535,    *)
(* 637-648)                                                                   *)
(******************************************************************************)

(** The object passed to [setResult]: [{accepted, table, steps: [], tree}]. *)
Record ui_result := mkUI {
  ui_accepted : bool;
  ui_table : list (list (list jstr));
  ui_steps : list jstr;
  ui_tree : option ptree
}.

(** [const cr = cykWithPointers(tokens, g);
     const tree = cr.accepted ? buildParseTree(g, tokens, cr.back) : null;]
    [None] is an exception thrown inside the handler. *)
Definition generate (g : grammar) (tokens : list jstr) : option ui_result :=
  let cr := cykWithPointers tokens g in
  match (if accepted cr then buildParseTree g tokens (res_back cr) else Some None) with
  | Some tree => Some (mkUI (accepted cr) (res_table cr) [] tree)
  | None => None
  end.

(** The PGC tab: [parseGrammarFromText(pgcGrammarText)] and
    [pgcSentence.trim().split(/\s+/)]. *)
Definition pgc_generate (pgcGrammarText pgcSentence : jstr) : option ui_result :=
  match parseGrammarFromText pgcGrammarText with
  | Some g => generate g (tokenize_pgc pgcSentence)
  | None => None
  end.

(** The Simulator tab: [parseGrammarFromText(simGrammarText)] and the
    tokens of [simWord]. *)
Definition sim_generate (simGrammarText simWord : jstr) : option ui_result :=
  match parseGrammarFromText simGrammarText with
  | Some g => generate g (tokenize_sim simWord)
  | None => None
  end.

(******************************************************************************)
(* renderAsciiTree (App.jsx 216-232) and toD3Tree (App.jsx 234-249)           *)
(******************************************************************************)

(** [' '.repeat(n)] *)
Definition spaces (n : nat) : jstr := repeat 32%N n.

(** [lines.join(sep)] *)
Fixpoint join (sep : jstr) (l : list jstr) : jstr :=
  match l with
  | [] => []
  | [x] => x
  | x :: r => x ++ sep ++ join sep r
  end.

(** The lines pushed by [draw(n, indent)]: a node with a [child] draws its
    label, a bar and the child's label; a node with subtrees draws its label
    and ["/ \"], then the left subtree at the same indent and the right one
    two columns further. *)
Fixpoint draw (t : ptree) (indent : nat) : list jstr :=
  match t with
  | Bare label => [spaces indent ++ label]
  | Leaf label tok => [spaces indent ++ label; spaces indent ++ js "|"; spaces indent ++ tok]
  | Node label l r =>
      [spaces indent ++ label; spaces indent ++ js "/ \"]
      ++ draw l (indent + 0) ++ draw r (indent + 2)
  end.

(** [renderAsciiTree(node)]: [''] for [null]. *)
Definition renderAsciiTree (node : option ptree) : jstr :=
  match node with
  | None => []
  | Some t => join [10%N] (draw t 0)
  end.

Set Warnings "-register-all".

(** The react-d3-tree nodes: [{name}] and [{name, children}]. *)
Inductive d3node :=
| D3Leaf (name : jstr)
| D3Node (name : jstr) (children : list d3node).

(** [toD3Tree] on a non-null node; the subtrees of a tree built by
    [buildParseTree] are never null, so [.filter(Boolean)] keeps both. *)
Fixpoint to_d3 (t : ptree) : d3node :=
  match t with
  | Bare label => D3Leaf label
  | Leaf label tok => D3Node label [D3Leaf tok]
  | Node label l r => D3Node label [to_d3 l; to_d3 r]
  end.

(** [toD3Tree(node)]: [null] for [null]. *)
Definition toD3Tree (node : option ptree) : option d3node :=
  match node with None => None | Some t => Some (to_d3 t) end.

(** The names of the childless nodes of a D3 tree, left to right. *)
Fixpoint d3_leaves (d : d3node) : list jstr :=
  match d with
  | D3Leaf name => [name]
  | D3Node _ cs => (fix go (cs : list d3node) : list jstr :=
                      match cs with [] => [] | c :: r => d3_leaves c ++ go r end) cs
  end.

(******************************************************************************)
(* renderTable (App.jsx 318-357)                                              *)
(******************************************************************************)

(** The text of cell [(row, col)]: [Array.from(result.table[row][col])
    .join(", ")] for [col >= row], else [""]; [{cellContent || "-"}]. *)
Definition cell_text (table : list (list (list jstr))) (row col : nat) : jstr :=
  let cellContent :=
    if row <=? col then join (js ", ") (nth col (nth row table []) []) else [] in
  if is_empty cellContent then js "-" else cellContent.

(** The cell texts of the rendered table; [None] is [null], returned when
    [result.table] is empty. *)
Definition renderTable (table : list (list (list jstr))) : option (list (list jstr)) :=
  let n := List.length table in
  if n =? 0 then None
  else Some (map (fun row => map (fun col => cell_text table row col) (seq 0 n)) (seq 0 n)).

(******************************************************************************)
(* parseGrammar (App.jsx 55-77), exampleGrammar (App.jsx 41-53) and           *)
(* handleCheckGrammar (App.jsx 308-316)                                       *)
(******************************************************************************)

(** [s.split(sep)] for a non-empty separator string; after a match the
    [skip] remaining code units of the separator are passed over. *)
Fixpoint split_str_aux (sep : jstr) (skip : nat) (cur : jstr) (s : jstr) : list jstr :=
  match s with
  | [] => [rev cur]
  | c :: r =>
      match skip with
      | S k => split_str_aux sep k cur r
      | 0 => if prefixb sep s then rev cur :: split_str_aux sep (List.length sep - 1) [] r
             else split_str_aux sep 0 (c :: cur) r
      end
  end.

Definition split_str (sep s : jstr) : list jstr := split_str_aux sep 0 [] s.

(** The custom-grammar form [{variables, terminals, startSymbol, rules}]. *)
Record grammar_input := mkGInput {
  gi_variables : jstr;
  gi_terminals : jstr;
  gi_startSymbol : jstr;
  gi_rules : jstr
}.

(** [prod.trim().split("").filter((c) => c.trim())] *)
Definition char_prod (prod : jstr) : production :=
  filter (fun c => negb (is_empty (trim c))) (split_chars (trim prod)).

(** [obj[k] = v]: assigning to [__proto__] replaces the object's prototype
    and creates no own property. *)
Definition obj_assign {V} (k : jstr) (v : V) (m : list (jstr * V)) : list (jstr * V) :=
  if jeqb k (js "__proto__") then m else assoc_set k v m.

(** The body of [lines.forEach((line) => { ... })] (App.jsx 59-68):
    [const [left, right] = line.split("->")]; [None] is the TypeError of
    [right.split] when [right] is [undefined]. *)
Definition parse_rule_line (parsedRules : list (jstr * list production)) (line : jstr) :=
  match split_str arrow_ascii line with
  | left_ :: right_ :: _ =>
      Some (obj_assign (trim left_) (map char_prod (split_on 124%N right_)) parsedRules)
  | _ => None
  end.

Fixpoint parse_rule_lines (parsedRules : list (jstr * list production)) (lines : list jstr)
    : option (list (jstr * list production)) :=
  match lines with
  | [] => Some parsedRules
  | l :: r =>
      match parse_rule_line parsedRules l with
      | Some pr => parse_rule_lines pr r
      | None => None
      end
  end.

(** The lines of [grammarInput.rules] kept by [.filter((l) => l.trim())]. *)
Definition rule_lines (text : jstr) : list jstr :=
  filter (fun l => negb (is_empty (trim l))) (split_on 10%N text).

(** [parseGrammar(grammarInput)]; [None] is a thrown TypeError. *)
Definition parseGrammar (gi : grammar_input) : option grammar :=
  match parse_rule_lines [] (rule_lines (gi_rules gi)) with
  | Some parsedRules =>
      Some (mkGrammar (map trim (split_on 44%N (gi_variables gi)))
                      (map trim (split_on 44%N (gi_terminals gi)))
                      (trim (gi_startSymbol gi)) parsedRules)
  | None => None
  end.

Definition exampleGrammar : grammar :=
  mkGrammar (map js ["S"; "A"; "B"]%string) (map js ["a"; "b"]%string) (js "S")
    [(js "S", [[js "A"; js "B"]; [js "B"; js "A"]]);
     (js "A", [[js "a"]]);
     (js "B", [[js "b"]])].

(** [handleCheckGrammar(useCustom)]: the result passed to [setResult];
    [None] is an exception thrown by [parseGrammar]. The string [input] is
    the word of [cykAlgorithm]. *)
Definition handleCheckGrammar (useCustom : bool) (customGrammar : grammar_input)
    (input : jstr) : option trace_result :=
  match (if useCustom then parseGrammar customGrammar else Some exampleGrammar) with
  | Some g => Some (cykAlgorithm (split_chars input) g)
  | None => None
  end.

(******************************************************************************)
(* Examples                                                                   *)
(******************************************************************************)

Definition nl : jstr := [10%N].

(** A double-quoted terminal of the grammar text. *)
Definition qt (s : string) : jstr := [34%N] ++ js s ++ [34%N].

Definition scenarioD_text : jstr :=
  js "S -> NP VP" ++ nl ++ js "NP -> Det N" ++ nl ++ js "VP -> V NP" ++ nl
  ++ js "Det -> " ++ qt "the" ++ js "|" ++ qt "a" ++ nl
  ++ js "N -> " ++ qt "cat" ++ js "|" ++ qt "dog" ++ nl
  ++ js "V -> " ++ qt "chased".

(******************************************************************************)
(* Reference notions of the spec                                              *)
(******************************************************************************)

(** The whitespace-delimited words of a string (spec 4.2): its maximal
    non-empty runs of non-whitespace code units. *)
Fixpoint words_aux (cur : jstr) (s : jstr) : list jstr :=
  match s with
  | [] => if is_empty cur then [] else [rev cur]
  | c :: r =>
      if is_ws c then (if is_empty cur then words_aux [] r else rev cur :: words_aux [] r)
      else words_aux (c :: cur) r
  end.

Definition words (s : jstr) : list jstr := words_aux [] s.

Definition has_ws (s : jstr) : bool := existsb is_ws s.

(** The tokens [tokens[i..j]]. *)
Definition span (tokens : list jstr) (i j : nat) : list jstr :=
  firstn (j - i + 1) (skipn i tokens).

(** Derivation in a CNF grammar (spec glossary): a variable derives a
    one-token string through a terminal production, and the concatenation
    [u ++ v] through a production [[B; C]] with [B] deriving [u] and [C]
    deriving [v].  The productions of [A] are [grammar.rules[A]]. *)
Inductive derives (g : grammar) : jstr -> list jstr -> Prop :=
| der_term A t : In [t] (get_rules g A) -> derives g A [t]
| der_bin A B C u v :
    In [B; C] (get_rules g A) -> derives g B u -> derives g C v -> derives g A (u ++ v).

(** Chomsky Normal Form: every production is one terminal (a symbol that is
    not a left-hand side of the grammar) or exactly two symbols. *)
Definition is_cnf (g : grammar) : Prop :=
  forall A ps p, In (A, ps) (rules g) -> In p ps ->
    (exists t, p = [t] /\ ~ In t (map fst (rules g))) \/
    (exists B C, p = [B; C]).

(** A decision procedure for [is_cnf]. *)
Definition cnf_check (g : grammar) : bool :=
  forallb (fun '(A, ps) =>
    forallb (fun p => match p with
                      | [t] => negb (existsb (jeqb t) (map fst (rules g)))
                      | [_; _] => true
                      | _ => false
                      end) ps) (rules g).

(** A tree node of the degenerate form [{label}] (no terminal child and no
    subtrees) occurs nowhere in the tree. *)
Fixpoint no_bare (t : ptree) : bool :=
  match t with
  | Bare _ => false
  | Leaf _ _ => true
  | Node _ l r => no_bare l && no_bare r
  end.

(** The terminal leaves of a tree, left to right. *)
Fixpoint leaves (t : ptree) : list jstr :=
  match t with
  | Bare _ => []
  | Leaf _ tok => [tok]
  | Node _ l r => leaves l ++ leaves r
  end.

(** A step message of [cykAlgorithm] read against a table [tb]: a diagonal
    message for a terminal production of [A] matching [word[i]], or a binary
    message for a production [[B; C]] of [A] with [B] in [tb i k] and [C] in
    [tb (k+1) j]; in both cases [A] is in the cell the message names. *)
Definition step_ok (w : list jstr) (g : grammar) (tb : table) (m : jstr) : Prop :=
  (exists i A, m = diag_msg i (nth i w []) A /\ i < List.length w /\
     In [nth i w []] (get_rules g A) /\ In A (tb i i)) \/
  (exists i j k A B C, m = bin_msg i j k A B C /\ i <= k < j /\ j < List.length w /\
     In [B; C] (get_rules g A) /\ In B (tb i k) /\ In C (tb (k + 1) j) /\ In A (tb i j)).

(** Every entry of a cell of [tb] has a message for it in [ms]. *)
Definition announced (w : list jstr) (tb : table) (ms : list jstr) : Prop :=
  forall a b x, In x (tb a b) -> exists m, In m ms /\
    ((a = b /\ m = diag_msg a (nth a w []) x) \/ (exists k B C, m = bin_msg a b k x B C)).

Definition trace_inv (w : list jstr) (g : grammar) (s : tstate) : Prop :=
  (forall m, In m (steps s) -> step_ok w g (ttbl s) m) /\ announced w (ttbl s) (steps s).

(******************************************************************************)
(* Properties                                                                 *)
(******************************************************************************)

Lemma jeqb_eq a b : jeqb a b = true <-> a = b.
Proof. unfold jeqb; destruct (list_eq_dec N.eq_dec a b); split; congruence. Qed.

Lemma jeqb_refl a : jeqb a a = true.
Proof. apply jeqb_eq; reflexivity. Qed.

Lemma fold_left_id {S X} (l : list X) (s : S) : fold_left (fun s _ => s) l s = s.
Proof. revert s; induction l; simpl; auto. Qed.

(** ** Scenario D of the spec *)

(** C9: compiling the Scenario D grammar text and word-tokenizing
    "the cat chased a dog", the recognizer accepts and the parse tree is
    S(NP(Det the, N cat), VP(V chased, NP(Det a, N dog))): root S with
    children NP and VP, and VP splitting into V and a nested NP. *)
Theorem scenarioD_parse :
  exists g,
    parseGrammarFromText scenarioD_text = Some g /\
    tokenize_pgc (js "the cat chased a dog") = map js ["the"; "cat"; "chased"; "a"; "dog"]%string /\
    accepted (cykWithPointers (tokenize_pgc (js "the cat chased a dog")) g) = true /\
    buildParseTree g (tokenize_pgc (js "the cat chased a dog"))
      (res_back (cykWithPointers (tokenize_pgc (js "the cat chased a dog")) g))
    = Some (Some (Node (js "S")
                    (Node (js "NP") (Leaf (js "Det") (js "the")) (Leaf (js "N") (js "cat")))
                    (Node (js "VP") (Leaf (js "V") (js "chased"))
                       (Node (js "NP") (Leaf (js "Det") (js "a")) (Leaf (js "N") (js "dog")))))).
Proof.
  eexists; split; [vm_compute; reflexivity|].
  vm_compute; repeat split.
Qed.

(** ** Degenerate inputs *)

Lemma process_lines_skip idx lines st :
  Forall (fun l => index_of arrow_ascii l = None /\ index_of [uarrow] l = None) lines ->
  process_lines idx lines st = Some st.
Proof.
  revert idx; induction lines as [|l r IH]; intros idx H; simpl; auto.
  inversion H as [|? ? [H1 H2] Hr]; subst.
  unfold process_line at 1, line_splitter; rewrite H1, H2; apply IH; auto.
Qed.

(** ** Determinism *)

(** C6: two calls with identical grammar and tokens give equal results
    (accepted flag, table and backpointers) and equal parse trees; the tree
    is built from the first recorded backpointer of each cell. *)
Theorem cyk_deterministic g1 g2 w1 w2 :
  g1 = g2 -> w1 = w2 ->
  cykWithPointers w1 g1 = cykWithPointers w2 g2 /\
  buildParseTree g1 w1 (res_back (cykWithPointers w1 g1))
  = buildParseTree g2 w2 (res_back (cykWithPointers w2 g2)).
Proof. intros -> ->; split; reflexivity. Qed.

Lemma cyk_deterministic_witness :
  cykWithPointers (split_chars (js "ab")) (mkGrammar [] [] (js "S") [(js "S", [[js "a"]])])
  = cykWithPointers (split_chars (js "ab")) (mkGrammar [] [] (js "S") [(js "S", [[js "a"]])]) /\
  buildParseTree (mkGrammar [] [] (js "S") [(js "S", [[js "a"]])]) (split_chars (js "ab"))
    (res_back (cykWithPointers (split_chars (js "ab")) (mkGrammar [] [] (js "S") [(js "S", [[js "a"]])])))
  = buildParseTree (mkGrammar [] [] (js "S") [(js "S", [[js "a"]])]) (split_chars (js "ab"))
    (res_back (cykWithPointers (split_chars (js "ab")) (mkGrammar [] [] (js "S") [(js "S", [[js "a"]])]))).
Proof. apply cyk_deterministic; reflexivity. Defined.

(** ** The grammar compiler: start symbol *)

Lemma push_rule_start left p st st' :
  push_rule left p st = Some st' -> ps_start st' = ps_start st.
Proof. unfold push_rule; destruct (assoc_get _ _); intros H; inversion H; reflexivity. Qed.

Lemma process_prod_start left p st st' :
  process_prod left p st = Some st' -> ps_start st' = ps_start st.
Proof.
  unfold process_prod; intros H.
  repeat match type of H with
         | context [match ?x with _ => _ end] => destruct x
         | context [if ?b then _ else _] => destruct b
         end;
  first [ apply push_rule_start in H; exact H | congruence ].
Qed.

Lemma process_prods_start left ps st st' :
  process_prods left ps st = Some st' -> ps_start st' = ps_start st.
Proof.
  revert st; induction ps as [|p r IH]; simpl; intros st H; [congruence|].
  destruct (process_prod left p st) as [st1|] eqn:E; [|discriminate].
  rewrite (IH _ H); eapply process_prod_start; eauto.
Qed.

Lemma process_line_start idx l st st' :
  process_line idx l st = Some st' ->
  ps_start st' =
    match line_splitter l with
    | Some k =>
        if (idx =? 0) && negb (is_empty (remove_ws (trim (firstn k l))))
        then remove_ws (trim (firstn k l)) else ps_start st
    | None => ps_start st
    end.
Proof.
  unfold process_line; destruct (line_splitter l) as [k|]; [|congruence].
  unfold add_line; intros H; apply process_prods_start in H; rewrite H; simpl.
  destruct (_ && _); reflexivity.
Qed.

Lemma process_lines_start_later idx ls st st' :
  process_lines (S idx) ls st = Some st' -> ps_start st' = ps_start st.
Proof.
  revert idx st; induction ls as [|l r IH]; simpl; intros idx st H; [congruence|].
  destruct (process_line (S idx) l st) as [st1|] eqn:E; [|discriminate].
  rewrite (IH _ _ H), (process_line_start _ _ _ _ E).
  destruct (line_splitter l); reflexivity.
Qed.

(** C3 (counterexample): the first line is malformed and skipped; the first
    line with an arrow is [A -> a], yet the start symbol stays the default
    [S]. *)
Lemma start_symbol_skipped_line_counterexample :
  exists g, parseGrammarFromText (js "junk" ++ nl ++ js "A -> a") = Some g /\
    startSymbol g = js "S" /\ startSymbol g <> js "A" /\
    get_rules g (js "A") = [[js "a"]].
Proof. eexists; split; [vm_compute; reflexivity|]; vm_compute; repeat split; discriminate. Qed.

(** C3 (amended): when compilation succeeds, the start symbol is the
    left-hand side (whitespace removed) of the first non-empty line if that
    line has an arrow marker and a non-empty left-hand side, and the default
    [S] otherwise; later lines never change it. *)
Theorem start_symbol_first_line text g :
  parseGrammarFromText text = Some g ->
  startSymbol g =
    match grammar_lines text with
    | l :: _ =>
        match line_splitter l with
        | Some k =>
            let left := remove_ws (trim (firstn k l)) in
            if is_empty left then js "S" else left
        | None => js "S"
        end
    | [] => js "S"
    end.
Proof.
  unfold parseGrammarFromText.
  destruct (grammar_lines text) as [|l rest]; simpl.
  - intros H; inversion H; reflexivity.
  - destruct (process_line 0 l init_pstate) as [st1|] eqn:E; [|discriminate].
    destruct (process_lines 1 rest st1) as [st2|] eqn:E2; [|discriminate].
    intros H; inversion H; subst; simpl.
    rewrite (process_lines_start_later _ _ _ _ E2), (process_line_start _ _ _ _ E).
    destruct (line_splitter l); [|reflexivity].
    destruct (is_empty _); reflexivity.
Qed.

Lemma start_symbol_first_line_witness :
  parseGrammarFromText (js "A -> a" ++ nl ++ js "B -> b") =
    Some (mkGrammar [js "A"; js "B"] [js "a"; js "b"] (js "A")
            [(js "A", [[js "a"]]); (js "B", [[js "b"]])]) /\
  startSymbol (mkGrammar [js "A"; js "B"] [js "a"; js "b"] (js "A")
                 [(js "A", [[js "a"]]); (js "B", [[js "b"]])]) = js "A".
Proof.
  split; [vm_compute; reflexivity|].
  exact (start_symbol_first_line (js "A -> a" ++ nl ++ js "B -> b") _ (eq_refl _)).
Defined.

(** ** The grammar compiler: splitting a line at its arrow *)

Lemma prefixb_app p r : prefixb p (p ++ r) = true.
Proof. induction p; simpl; auto. rewrite N.eqb_refl; auto. Qed.

Lemma prefixb_true p s : prefixb p s = true -> exists r, s = p ++ r.
Proof.
  revert s; induction p as [|a p IH]; intros [|b s]; simpl; try discriminate.
  - exists []; reflexivity.
  - exists (b :: s); reflexivity.
  - intros H; apply andb_true_iff in H as [H1 H2].
    apply N.eqb_eq in H1; subst; destruct (IH _ H2) as [r ->]; exists r; reflexivity.
Qed.

Lemma index_of_from_hit pat s i :
  prefixb pat s = true -> index_of_from pat s i = Some i.
Proof. destruct s; simpl; intros ->; reflexivity. Qed.

Lemma index_of_from_none pat s i :
  (forall a b, s <> a ++ pat ++ b) -> index_of_from pat s i = None.
Proof.
  revert i; induction s as [|c s IH]; intros i H; simpl.
  - destruct (prefixb pat []) eqn:E; auto.
    destruct (prefixb_true _ _ E) as [r Hr]; exfalso; apply (H [] r); simpl; auto.
  - destruct (prefixb pat (c :: s)) eqn:E.
    + destruct (prefixb_true _ _ E) as [r Hr]; exfalso; apply (H [] r); simpl; auto.
    + apply IH; intros a b Hab; apply (H (c :: a) b); simpl; congruence.
Qed.

Lemma index_of_from_first pat pre post i :
  (forall a b, pre ++ pat ++ post = a ++ pat ++ b -> List.length pre <= List.length a) ->
  index_of_from pat (pre ++ pat ++ post) i = Some (i + List.length pre).
Proof.
  revert i; induction pre as [|c pre IH]; intros i H; simpl.
  - rewrite index_of_from_hit by apply prefixb_app; f_equal; lia.
  - destruct (prefixb pat (c :: pre ++ pat ++ post)) eqn:E.
    + destruct (prefixb_true _ _ E) as [r Hr].
      specialize (H [] r); simpl in H; rewrite Hr in H; specialize (H eq_refl); lia.
    + rewrite IH; [f_equal; lia|].
      intros a b Hab; specialize (H (c :: a) b); simpl in H; rewrite Hab in H.
      specialize (H eq_refl); lia.
Qed.

Lemma firstn_app_len {X} (pre rest : list X) : firstn (List.length pre) (pre ++ rest) = pre.
Proof. rewrite firstn_app, Nat.sub_diag, firstn_all; simpl; apply app_nil_r. Qed.

(** C4 (counterexample): in [A → B -> C] the first arrow marker is the
    Unicode one, after [A]; the code prefers any ASCII [->] and splits there,
    so the left-hand side becomes [A→B] and no rule for [A] exists. *)
Lemma arrow_priority_counterexample :
  exists g, parseGrammarFromText (js "A " ++ [uarrow] ++ js " B -> C") = Some g /\
    map fst (rules g) = [js "A" ++ [uarrow] ++ js "B"] /\
    get_rules g (js "A") = [].
Proof. eexists; split; [vm_compute; reflexivity|]; vm_compute; split; reflexivity. Qed.

(** C4 (amended): a line with neither marker is skipped (the state is
    unchanged, no error); a line containing [->] is split at its first
    [->], the left-hand side being the text before it with all whitespace
    removed and the right-hand side the trimmed text after it, which
    [add_line] splits on [|]; a line without [->] but with a Unicode arrow
    is split at its first Unicode arrow for the left-hand side. *)
Theorem line_split_at_arrow idx line st :
  ((forall a b, line <> a ++ arrow_ascii ++ b) ->
   (forall a b, line <> a ++ [uarrow] ++ b) ->
   process_line idx line st = Some st) /\
  (forall pre post,
     line = pre ++ arrow_ascii ++ post ->
     (forall a b, line = a ++ arrow_ascii ++ b -> List.length pre <= List.length a) ->
     process_line idx line st = add_line idx (remove_ws (trim pre)) (trim post) st) /\
  (forall pre post,
     (forall a b, line <> a ++ arrow_ascii ++ b) ->
     line = pre ++ [uarrow] ++ post ->
     (forall a b, line = a ++ [uarrow] ++ b -> List.length pre <= List.length a) ->
     exists right, process_line idx line st = add_line idx (remove_ws (trim pre)) right st).
Proof.
  split; [|split].
  - intros H1 H2; unfold process_line, line_splitter, index_of.
    rewrite !index_of_from_none by auto; reflexivity.
  - intros pre post -> Hfirst; unfold process_line, line_splitter, index_of.
    rewrite index_of_from_first by exact Hfirst; simpl.
    rewrite firstn_app_len, skipn_app, skipn_all2 by lia; simpl.
    replace (List.length pre + 2 - List.length pre) with 2 by lia; reflexivity.
  - intros pre post Hno -> Hfirst; unfold process_line, line_splitter, index_of.
    rewrite index_of_from_none by exact Hno.
    rewrite index_of_from_first by exact Hfirst; simpl.
    rewrite firstn_app_len; eexists; reflexivity.
Qed.

Lemma line_split_at_arrow_witness :
  process_line 0 (js "S -> a | B C") init_pstate
  = add_line 0 (remove_ws (trim (js "S "))) (trim (js " a | B C")) init_pstate.
Proof.
  apply (proj1 (proj2 (line_split_at_arrow 0 (js "S -> a | B C") init_pstate))
           (js "S ") (js " a | B C")); [reflexivity|].
  intros a b Hab.
  destruct a as [|c0 [|c1 [|c2 a]]]; simpl; try lia;
    simpl in Hab; inversion Hab.
Defined.

(** ** Tokenization *)

Lemma drop_ws_prefix s :
  exists w, Forall (fun c => is_ws c = true) w /\ s = w ++ drop_ws s.
Proof.
  induction s as [|c r [w [Hw He]]]; simpl.
  - exists []; auto.
  - destruct (is_ws c) eqn:E.
    + exists (c :: w); split; [constructor; auto|]; simpl; congruence.
    + exists []; auto.
Qed.

Lemma drop_ws_head s c r : drop_ws s = c :: r -> is_ws c = false.
Proof.
  induction s as [|d s IH]; simpl; [discriminate|].
  destruct (is_ws d) eqn:E; auto; intros H; inversion H; subst; auto.
Qed.

Lemma words_aux_ws_tail cur w :
  Forall (fun c => is_ws c = true) w -> words_aux cur w = words_aux cur [].
Proof.
  intros Hw; revert cur; induction Hw as [|c w Hc Hw IH]; intros cur; simpl; auto.
  rewrite Hc, IH; simpl; destruct cur; reflexivity.
Qed.

Lemma words_aux_app_ws cur t w :
  Forall (fun c => is_ws c = true) w -> words_aux cur (t ++ w) = words_aux cur t.
Proof.
  intros Hw; revert cur; induction t as [|c t IH]; intros cur; simpl.
  - apply words_aux_ws_tail; auto.
  - destruct (is_ws c); [destruct (is_empty cur)|]; rewrite ?IH; reflexivity.
Qed.

Lemma words_aux_ws_head w t :
  Forall (fun c => is_ws c = true) w -> words_aux [] (w ++ t) = words_aux [] t.
Proof. induction 1; simpl; auto; rewrite H; auto. Qed.

(** The JavaScript split agrees with [words] while the accumulator is
    non-empty outside a whitespace run, and the string ends in a word. *)
Lemma split_ws_aux_words t cur inws :
  (inws = false /\ cur <> [] \/ inws = true /\ cur = []) ->
  (t = [] -> cur <> []) ->
  (forall c r, t = r ++ [c] -> is_ws c = false) ->
  split_ws_aux cur inws t = words_aux cur t.
Proof.
  revert cur inws; induction t as [|c t IH]; intros cur inws Hp Hend Hlast; simpl.
  - destruct cur; [exfalso; apply Hend; auto|reflexivity].
  - destruct (is_ws c) eqn:Ec.
    + assert (Ht : t <> []).
      { intros ->; specialize (Hlast c [] eq_refl); congruence. }
      destruct Hp as [[-> Hc]|[-> ->]].
      * destruct cur as [|x cur]; [congruence|]; simpl; f_equal.
        apply IH; auto; intros c' r' ->; apply (Hlast c' (c :: r')); reflexivity.
      * simpl; apply IH; auto; intros c' r' ->; apply (Hlast c' (c :: r')); reflexivity.
    + assert (Hp' : false = false /\ c :: cur <> [] \/ false = true /\ c :: cur = []).
      { left; split; [reflexivity|discriminate]. }
      destruct Hp as [[-> _]|[-> ->]]; apply IH; auto; try discriminate;
        intros c' r' ->; apply (Hlast c' (c :: r')); reflexivity.
Qed.

Lemma trim_decomp s :
  exists w1 w2, Forall (fun c => is_ws c = true) w1 /\
    Forall (fun c => is_ws c = true) w2 /\ s = w1 ++ trim s ++ w2.
Proof.
  destruct (drop_ws_prefix s) as [w1 [Hw1 E1]].
  destruct (drop_ws_prefix (rev (drop_ws s))) as [w2 [Hw2 E2]].
  exists w1, (rev w2); split; [auto|split].
  - apply Forall_rev; auto.
  - unfold trim; rewrite E1 at 1; f_equal.
    rewrite <- rev_app_distr, <- E2, rev_involutive; reflexivity.
Qed.

Lemma trim_ends s c r :
  trim s = c :: r -> is_ws c = false /\ (forall c' r', c :: r = r' ++ [c'] -> is_ws c' = false).
Proof.
  intros Ht; split.
  - destruct (drop_ws_prefix (rev (drop_ws s))) as [w2 [Hw2 E2]].
    assert (Hd : drop_ws s = c :: r ++ rev w2).
    { rewrite <- (rev_involutive (drop_ws s)), E2, rev_app_distr.
      unfold trim in Ht; rewrite Ht; reflexivity. }
    apply drop_ws_head in Hd; auto.
  - intros c' r' He; unfold trim in Ht; rewrite He in Ht.
    apply (f_equal (@rev N)) in Ht; rewrite rev_involutive, rev_app_distr in Ht.
    simpl in Ht; apply drop_ws_head in Ht; auto.
Qed.

Lemma split_ws_trim_words s :
  existsb (fun c => negb (is_ws c)) s = true -> split_ws (trim s) = words s.
Proof.
  intros Hne; destruct (trim_decomp s) as [w1 [w2 [Hw1 [Hw2 Hs]]]].
  unfold words; rewrite Hs at 2; rewrite words_aux_ws_head, words_aux_app_ws by auto.
  destruct (trim s) as [|c r] eqn:Et.
  - exfalso; rewrite Hs in Hne; simpl in Hne.
    apply existsb_exists in Hne as [x [Hx Hnx]].
    apply in_app_or in Hx as [Hx|Hx];
      [rewrite Forall_forall in Hw1; rewrite Hw1 in Hnx by auto
      |rewrite Forall_forall in Hw2; rewrite Hw2 in Hnx by auto]; discriminate.
  - destruct (trim_ends _ _ _ Et) as [Hc Hlast].
    unfold split_ws; simpl; rewrite Hc.
    apply split_ws_aux_words; [left; split; [reflexivity|discriminate]|discriminate|].
    intros c' r' ->; apply (Hlast c' (c :: r')); reflexivity.
Qed.

(** C5 (counterexample): ["a<TAB>b"] contains whitespace but no ASCII space,
    so the simulator splits it into code units, the tab among them; and the
    sentence tab splits ["ab"], which has no whitespace, into one word. *)
Lemma tokenize_counterexample :
  has_ws (js "a" ++ [9%N] ++ js "b") = true /\
  tokenize_sim (js "a" ++ [9%N] ++ js "b") = [js "a"; [9%N]; js "b"] /\
  words (js "a" ++ [9%N] ++ js "b") = [js "a"; js "b"] /\
  has_ws (js "ab") = false /\ tokenize_pgc (js "ab") = [js "ab"].
Proof. vm_compute; repeat split. Qed.

(** C5 (amended): the simulator tab yields the whitespace-delimited words
    when the input contains an ASCII space and some non-whitespace
    character, and otherwise the code units of the trimmed input (none for
    the empty input); the sentence tab always yields the words of an input
    with some non-whitespace character. *)
Theorem tokenize_words_or_chars :
  tokenize_sim [] = [] /\
  (forall s, includes_space s = true -> existsb (fun c => negb (is_ws c)) s = true ->
     tokenize_sim s = words s) /\
  (forall s, includes_space s = false -> tokenize_sim s = split_chars (trim s)) /\
  (forall s, existsb (fun c => negb (is_ws c)) s = true -> tokenize_pgc s = words s).
Proof.
  split; [reflexivity|split; [|split]].
  - intros s Hsp Hne; unfold tokenize_sim; rewrite Hsp; apply split_ws_trim_words; auto.
  - intros s Hsp; unfold tokenize_sim; rewrite Hsp; reflexivity.
  - intros s Hne; apply split_ws_trim_words; auto.
Qed.

Lemma tokenize_words_or_chars_witness :
  tokenize_sim (js " the  cat ") = words (js " the  cat ") /\
  tokenize_sim (js "abab") = split_chars (trim (js "abab")) /\
  tokenize_pgc (js "dog") = words (js "dog").
Proof.
  split; [|split].
  - apply (proj1 (proj2 tokenize_words_or_chars)); reflexivity.
  - apply (proj1 (proj2 (proj2 tokenize_words_or_chars))); reflexivity.
  - apply (proj2 (proj2 (proj2 tokenize_words_or_chars))); reflexivity.
Defined.

(** ** The trace recognizer against the backpointer recognizer *)

Lemma fold_left_sim {S T X} (R : S -> T -> Prop) (f : S -> X -> S) (f' : T -> X -> T) l :
  (forall s t x, R s t -> R (f s x) (f' t x)) ->
  forall s t, R s t -> R (fold_left f l s) (fold_left f' l t).
Proof. intros Hf; induction l; simpl; auto. Qed.

Definition same_table (s : cstate) (t : tstate) : Prop := tbl s = ttbl t.

Lemma fill_same_table word g s t :
  same_table s t -> same_table (cyk_fill word g s) (tcyk_fill word g t).
Proof.
  intros H; unfold cyk_fill, tcyk_fill, upper_step, tupper_step.
  apply fold_left_sim; [intros s1 t1 len H1|].
  - apply fold_left_sim; [intros s2 t2 i H2|exact H1].
    unfold cell_step, tcell_step.
    apply fold_left_sim; [intros s3 t3 k H3|exact H2].
    apply fold_left_sim; [intros s4 t4 A H4|exact H3].
    apply fold_left_sim; [intros s5 t5 prod H5|exact H4].
    unfold same_table in *; destruct prod as [|B [|C [|]]]; simpl; auto.
    rewrite H5; destruct (_ && _); simpl; congruence.
  - apply fold_left_sim; [intros s1 t1 i H1|exact H].
    unfold diag_step, tdiag_step.
    apply fold_left_sim; [intros s2 t2 A H2|exact H1].
    apply fold_left_sim; [intros s3 t3 prod H3|exact H2].
    unfold same_table in *; destruct prod as [|p0 [|]]; simpl; auto.
    destruct (jeqb _ _); simpl; congruence.
Qed.

(** C2: on the same grammar and tokens, [cykAlgorithm] and [cykWithPointers]
    return the same accepted flag and equal tables (the same variables, in
    the same order, in every cell). *)
Theorem trace_matches_pointers g w :
  t_accepted (cykAlgorithm w g) = accepted (cykWithPointers w g) /\
  t_table (cykAlgorithm w g) = res_table (cykWithPointers w g).
Proof.
  unfold cykAlgorithm, cykWithPointers.
  destruct (List.length w =? 0); simpl; [split; reflexivity|].
  pose proof (fill_same_table w g empty_cstate empty_tstate eq_refl) as H.
  unfold same_table in H; rewrite H; split; reflexivity.
Qed.

(** ** Triangular shape of the tables *)

Lemma fold_left_ind_in {S X} (P : S -> Prop) (f : S -> X -> S) (l : list X) :
  (forall s x, In x l -> P s -> P (f s x)) -> forall s, P s -> P (fold_left f l s).
Proof.
  induction l as [|x l IH]; simpl; intros Hf s Hs; [exact Hs|].
  exact (IH (fun s' y Hy => Hf s' y (or_intror Hy)) (f s x) (Hf s x (or_introl eq_refl) Hs)).
Qed.

Lemma fold_left_sim_in {S T X} (R : S -> T -> Prop) (f : S -> X -> S) (f' : T -> X -> T) l :
  (forall s t x, In x l -> R s t -> R (f s x) (f' t x)) ->
  forall s t, R s t -> R (fold_left f l s) (fold_left f' l t).
Proof.
  induction l as [|x l IH]; simpl; intros Hf s t H; [exact H|].
  exact (IH (fun s' t' y Hy => Hf s' t' y (or_intror Hy)) _ _ (Hf s t x (or_introl eq_refl) H)).
Qed.

Lemma cell_at_materialize {X} n (f : nat -> nat -> X) i j :
  i < n -> j < n -> cell_at (materialize n f) i j = Some (f i j).
Proof.
  intros Hi Hj; unfold cell_at, materialize.
  rewrite nth_error_map, nth_error_seq.
  destruct (Nat.ltb_spec i n); [|lia]; simpl.
  rewrite nth_error_map, nth_error_seq.
  destruct (Nat.ltb_spec j n); [|lia]; reflexivity.
Qed.

(** Agreement of two states on the cells with [a <= b]. *)
Definition upper_eq (s1 s2 : cstate) : Prop :=
  forall a b, a <= b -> tbl s1 a b = tbl s2 a b /\ bk s1 a b = bk s2 a b.

Definition tupper_eq (s1 s2 : tstate) : Prop :=
  steps s1 = steps s2 /\ forall a b, a <= b -> ttbl s1 a b = ttbl s2 a b.

(** Agreement on the cells with [a > b]. *)
Definition lower_eq (s1 s2 : cstate) : Prop :=
  forall a b, b < a -> tbl s1 a b = tbl s2 a b /\ bk s1 a b = bk s2 a b.

Definition tlower_eq (s1 s2 : tstate) : Prop :=
  forall a b, b < a -> ttbl s1 a b = ttbl s2 a b.

Lemma record_cell_upper i j A r s1 s2 :
  upper_eq s1 s2 -> upper_eq (record_cell i j A r s1) (record_cell i j A r s2).
Proof.
  intros H a b Hab; unfold record_cell, upd; simpl.
  destruct ((a =? i) && (b =? j)) eqn:E; [|apply H; auto].
  apply andb_true_iff in E as [E1 E2]; apply Nat.eqb_eq in E1, E2; subst.
  destruct (H i j Hab) as [-> ->]; auto.
Qed.

Lemma record_step_upper i j A m s1 s2 :
  tupper_eq s1 s2 -> tupper_eq (record_step i j A m s1) (record_step i j A m s2).
Proof.
  intros [Hs H]; split; [simpl; congruence|].
  intros a b Hab; unfold record_step, upd; simpl.
  destruct ((a =? i) && (b =? j)) eqn:E; [|apply H; auto].
  apply andb_true_iff in E as [E1 E2]; apply Nat.eqb_eq in E1, E2; subst.
  rewrite (H i j Hab); auto.
Qed.

Lemma record_cell_lower i j A r s s0 :
  i <= j -> lower_eq s0 s -> lower_eq s0 (record_cell i j A r s).
Proof.
  intros Hij H a b Hab; unfold record_cell, upd; simpl.
  destruct ((a =? i) && (b =? j)) eqn:E; [|apply H; auto].
  apply andb_true_iff in E as [E1 E2]; apply Nat.eqb_eq in E1, E2; lia.
Qed.

Lemma record_step_lower i j A m s s0 :
  i <= j -> tlower_eq s0 s -> tlower_eq s0 (record_step i j A m s).
Proof.
  intros Hij H a b Hab; unfold record_step, upd; simpl.
  destruct ((a =? i) && (b =? j)) eqn:E; [|apply H; auto].
  apply andb_true_iff in E as [E1 E2]; apply Nat.eqb_eq in E1, E2; lia.
Qed.

Lemma cyk_fill_upper tokens g s1 s2 :
  upper_eq s1 s2 -> upper_eq (cyk_fill tokens g s1) (cyk_fill tokens g s2).
Proof.
  intros H; unfold cyk_fill, upper_step.
  apply fold_left_sim_in; [intros t1 t2 len _ H1|].
  - apply fold_left_sim_in; [intros u1 u2 i _ H2|exact H1].
    unfold cell_step.
    apply fold_left_sim_in; [intros v1 v2 k Hk H3|exact H2].
    apply in_seq in Hk.
    apply fold_left_sim_in; [intros w1 w2 A _ H4|exact H3].
    apply fold_left_sim_in; [intros x1 x2 prod _ H5|exact H4].
    destruct prod as [|B [|C [|]]]; simpl; auto.
    destruct (H5 i k ltac:(lia)) as [-> _]; destruct (H5 (k + 1) (i + len - 1) ltac:(lia)) as [-> _].
    destruct (_ && _); auto using record_cell_upper.
  - apply fold_left_sim_in; [intros t1 t2 i _ H1|exact H].
    unfold diag_step.
    apply fold_left_sim_in; [intros u1 u2 A _ H2|exact H1].
    apply fold_left_sim_in; [intros v1 v2 prod _ H3|exact H2].
    destruct prod as [|p0 [|]]; simpl; auto.
    destruct (jeqb _ _); auto using record_cell_upper.
Qed.

Lemma tcyk_fill_upper word g s1 s2 :
  tupper_eq s1 s2 -> tupper_eq (tcyk_fill word g s1) (tcyk_fill word g s2).
Proof.
  intros H; unfold tcyk_fill, tupper_step.
  apply fold_left_sim_in; [intros t1 t2 len _ H1|].
  - apply fold_left_sim_in; [intros u1 u2 i _ H2|exact H1].
    unfold tcell_step.
    apply fold_left_sim_in; [intros v1 v2 k Hk H3|exact H2].
    apply in_seq in Hk.
    apply fold_left_sim_in; [intros w1 w2 A _ H4|exact H3].
    apply fold_left_sim_in; [intros x1 x2 prod _ H5|exact H4].
    destruct prod as [|B [|C [|]]]; simpl; auto.
    pose proof H5 as [_ H6].
    rewrite (H6 i k ltac:(lia)), (H6 (k + 1) (i + len - 1) ltac:(lia)).
    destruct (_ && _); auto using record_step_upper.
  - apply fold_left_sim_in; [intros t1 t2 i _ H1|exact H].
    unfold tdiag_step.
    apply fold_left_sim_in; [intros u1 u2 A _ H2|exact H1].
    apply fold_left_sim_in; [intros v1 v2 prod _ H3|exact H2].
    destruct prod as [|p0 [|]]; simpl; auto.
    destruct (jeqb _ _); auto using record_step_upper.
Qed.

Lemma cyk_fill_lower tokens g s : lower_eq s (cyk_fill tokens g s).
Proof.
  unfold cyk_fill, upper_step.
  apply fold_left_ind_in; [intros t len _ H1|].
  - apply fold_left_ind_in; [intros u i _ H2|exact H1].
    unfold cell_step.
    apply fold_left_ind_in; [intros v k Hk H3|exact H2].
    apply in_seq in Hk.
    apply fold_left_ind_in; [intros w A _ H4|exact H3].
    apply fold_left_ind_in; [intros x prod _ H5|exact H4].
    destruct prod as [|B [|C [|]]]; simpl; auto.
    destruct (_ && _); auto; apply record_cell_lower; auto; lia.
  - apply fold_left_ind_in; [intros t i _ H1|intros a b _; auto].
    unfold diag_step.
    apply fold_left_ind_in; [intros u A _ H2|exact H1].
    apply fold_left_ind_in; [intros v prod _ H3|exact H2].
    destruct prod as [|p0 [|]]; simpl; auto.
    destruct (jeqb _ _); auto; apply record_cell_lower; auto.
Qed.

Lemma tcyk_fill_lower word g s : tlower_eq s (tcyk_fill word g s).
Proof.
  unfold tcyk_fill, tupper_step.
  apply fold_left_ind_in; [intros t len _ H1|].
  - apply fold_left_ind_in; [intros u i _ H2|exact H1].
    unfold tcell_step.
    apply fold_left_ind_in; [intros v k Hk H3|exact H2].
    apply in_seq in Hk.
    apply fold_left_ind_in; [intros w A _ H4|exact H3].
    apply fold_left_ind_in; [intros x prod _ H5|exact H4].
    destruct prod as [|B [|C [|]]]; simpl; auto.
    destruct (_ && _); auto; apply record_step_lower; auto; lia.
  - apply fold_left_ind_in; [intros t i _ H1|intros a b _; auto].
    unfold tdiag_step.
    apply fold_left_ind_in; [intros u A _ H2|exact H1].
    apply fold_left_ind_in; [intros v prod _ H3|exact H2].
    destruct prod as [|p0 [|]]; simpl; auto.
    destruct (jeqb _ _); auto; apply record_step_lower; auto.
Qed.

(** C7: in both recognizers the cells [table[i][j]] with [i > j] are never
    written (the fill leaves them as they were, so in the results they are
    empty) and never read: two initial tables that agree on the cells with
    [i <= j] give final tables, backpointers and steps that agree there, so
    in particular the same accepted flag, read from [table[0][n-1]]. *)
Theorem triangular_invariant tokens g :
  (forall s, lower_eq s (cyk_fill tokens g s)) /\
  (forall s, tlower_eq s (tcyk_fill tokens g s)) /\
  (forall s1 s2, upper_eq s1 s2 ->
     upper_eq (cyk_fill tokens g s1) (cyk_fill tokens g s2) /\
     set_has (tbl (cyk_fill tokens g s1) 0 (List.length tokens - 1)) (startSymbol g)
     = set_has (tbl (cyk_fill tokens g s2) 0 (List.length tokens - 1)) (startSymbol g)) /\
  (forall s1 s2, tupper_eq s1 s2 ->
     tupper_eq (tcyk_fill tokens g s1) (tcyk_fill tokens g s2)) /\
  (forall i j, j < i < List.length tokens ->
     cell_at (res_table (cykWithPointers tokens g)) i j = Some [] /\
     cell_at (res_back (cykWithPointers tokens g)) i j = Some [] /\
     cell_at (t_table (cykAlgorithm tokens g)) i j = Some []).
Proof.
  split; [apply cyk_fill_lower|].
  split; [apply tcyk_fill_lower|].
  split.
  { intros s1 s2 H; pose proof (cyk_fill_upper tokens g _ _ H) as H'.
    split; [exact H'|]; destruct (H' 0 (List.length tokens - 1) ltac:(lia)) as [-> _]; reflexivity. }
  split; [apply tcyk_fill_upper|].
  intros i j Hij.
  unfold cykWithPointers, cykAlgorithm.
  destruct (Nat.eqb_spec (List.length tokens) 0) as [E|E]; [lia|]; simpl.
  rewrite !cell_at_materialize by lia.
  destruct (cyk_fill_lower tokens g empty_cstate i j ltac:(lia)) as [H1 H2].
  pose proof (tcyk_fill_lower tokens g empty_tstate i j ltac:(lia)) as H3.
  rewrite <- H1, <- H2, <- H3; repeat split.
Qed.

Lemma triangular_invariant_witness :
  cell_at (res_table (cykWithPointers [js "a"; js "b"] (mkGrammar [] [] (js "S") [(js "S", [[js "A"; js "B"]]); (js "A", [[js "a"]]); (js "B", [[js "b"]])]))) 1 0 = Some [] /\
  cell_at (res_back (cykWithPointers [js "a"; js "b"] (mkGrammar [] [] (js "S") [(js "S", [[js "A"; js "B"]]); (js "A", [[js "a"]]); (js "B", [[js "b"]])]))) 1 0 = Some [] /\
  cell_at (t_table (cykAlgorithm [js "a"; js "b"] (mkGrammar [] [] (js "S") [(js "S", [[js "A"; js "B"]]); (js "A", [[js "a"]]); (js "B", [[js "b"]])]))) 1 0 = Some [].
Proof.
  apply (proj2 (proj2 (proj2 (proj2 (triangular_invariant [js "a"; js "b"]
           (mkGrammar [] [] (js "S") [(js "S", [[js "A"; js "B"]]); (js "A", [[js "a"]]); (js "B", [[js "b"]])])))))).
  simpl; lia.
Defined.

(** ** Correctness of the recognizer *)

Lemma set_has_In l x : set_has l x = true <-> In x l.
Proof.
  unfold set_has; rewrite existsb_exists; split.
  - intros [y [Hy E]]; apply jeqb_eq in E; subst; auto.
  - intros H; exists x; split; auto; apply jeqb_refl.
Qed.

Lemma set_add_In a l x : In x (set_add a l) <-> x = a \/ In x l.
Proof.
  unfold set_add; destruct (existsb (jeqb a) l) eqn:E.
  - apply existsb_exists in E as [y [Hy Ey]]; apply jeqb_eq in Ey; subst; intuition congruence.
  - rewrite in_app_iff; simpl; intuition.
Qed.

Lemma In_insert_by_value k l x : In x (insert_by_value k l) <-> x = k \/ In x l.
Proof.
  induction l as [|k' l IH]; simpl; [intuition|].
  destruct (_ <=? _)%N; simpl; [intuition|rewrite IH; intuition].
Qed.

Lemma In_sort_by_value l x : In x (sort_by_value l) <-> In x l.
Proof.
  induction l as [|k l IH]; simpl; [reflexivity|].
  rewrite In_insert_by_value, IH; intuition.
Qed.

Lemma In_object_keys {V} (m : list (jstr * V)) x : In x (object_keys m) <-> In x (map fst m).
Proof.
  unfold object_keys; rewrite in_app_iff, In_sort_by_value, !filter_In.
  destruct (is_array_index x); simpl; intuition.
Qed.

Lemma assoc_get_In {V} (m : list (jstr * V)) k v :
  assoc_get k m = Some v -> In k (map fst m).
Proof.
  induction m as [|[k' v'] m IH]; simpl; [discriminate|].
  destruct (jeqb k k') eqn:E; [apply jeqb_eq in E; auto|intros H; right; auto].
Qed.

Lemma get_rules_key g A p : In p (get_rules g A) -> In A (object_keys (rules g)).
Proof.
  unfold get_rules; destruct (assoc_get A (rules g)) eqn:E; [|intros []].
  intros _; apply In_object_keys; eapply assoc_get_In; eauto.
Qed.

(** Monotonicity: cells only grow. *)
Definition grows (s s' : cstate) : Prop :=
  forall i j x, In x (tbl s i j) -> In x (tbl s' i j).

Lemma grows_refl s : grows s s.
Proof. intros ? ? ? H; exact H. Qed.

Lemma grows_trans s1 s2 s3 : grows s1 s2 -> grows s2 s3 -> grows s1 s3.
Proof. intros H1 H2 ? ? ? H; auto. Qed.

Lemma record_cell_tbl i j A r s a b x :
  In x (tbl (record_cell i j A r s) a b) <-> (a = i /\ b = j /\ x = A) \/ In x (tbl s a b).
Proof.
  unfold record_cell, upd; simpl.
  destruct (Nat.eqb_spec a i), (Nat.eqb_spec b j); simpl; subst;
    rewrite ?set_add_In; intuition.
Qed.

Lemma record_cell_grows i j A r s : grows s (record_cell i j A r s).
Proof. intros a b x H; apply record_cell_tbl; auto. Qed.

Lemma fold_left_grows {X} (f : cstate -> X -> cstate) l s :
  (forall s x, In x l -> grows s (f s x)) -> grows s (fold_left f l s).
Proof.
  intros Hf; apply (fold_left_ind_in (fun s' => grows s s')); [|apply grows_refl].
  intros s' x Hx H; eapply grows_trans; eauto.
Qed.

(** A property that holds after the body at [x] from any larger state, and
    is kept by growth, holds after the whole loop. *)
Lemma fold_left_hit {X} (f : cstate -> X -> cstate) l s0 x (Q : cstate -> Prop) :
  (forall s y, In y l -> grows s (f s y)) ->
  (forall s s', Q s -> grows s s' -> Q s') ->
  In x l -> (forall s, grows s0 s -> Q (f s x)) ->
  Q (fold_left f l s0).
Proof.
  intros Hf HQ; revert s0; induction l as [|y l IH]; simpl; intros s0 Hx Hs; [destruct Hx|].
  destruct Hx as [->|Hx].
  - eapply HQ; [apply Hs, grows_refl|].
    apply fold_left_grows; intros; apply Hf; right; auto.
  - apply IH; [intros; apply Hf; right; auto|exact Hx|].
    intros s Hgs; apply Hs; eapply grows_trans; [apply Hf; left; reflexivity|exact Hgs].
Qed.

Lemma diag_prod_grows i tok A s p : grows s (diag_prod i tok A s p).
Proof.
  destruct p as [|p0 [|]]; simpl; try apply grows_refl.
  destruct (jeqb p0 tok); [apply record_cell_grows|apply grows_refl].
Qed.

Lemma bin_prod_grows i j k A s p : grows s (bin_prod i j k A s p).
Proof.
  destruct p as [|B [|C [|]]]; simpl; try apply grows_refl.
  destruct (_ && _); [apply record_cell_grows|apply grows_refl].
Qed.

Lemma diag_step_grows tokens g s i : grows s (diag_step tokens g s i).
Proof.
  unfold diag_step; apply fold_left_grows; intros s' A _.
  apply fold_left_grows; intros; apply diag_prod_grows.
Qed.

Lemma cell_step_grows g i j s : grows s (cell_step g i j s).
Proof.
  unfold cell_step; apply fold_left_grows; intros s1 k _.
  apply fold_left_grows; intros s2 A _.
  apply fold_left_grows; intros; apply bin_prod_grows.
Qed.

Lemma len_step_grows n g s len :
  grows s (fold_left (fun s i => cell_step g i (i + len - 1) s) (seq 0 (n - len + 1)) s).
Proof. apply fold_left_grows; intros; apply cell_step_grows. Qed.

(** Spans of the token sequence. *)

Lemma firstn_add {X} a b (l : list X) : firstn (a + b) l = firstn a l ++ firstn b (skipn a l).
Proof. revert l; induction a; intros [|x l]; simpl; rewrite ?firstn_nil; f_equal; auto. Qed.

Lemma app_same_length {X} (l1 l2 l3 l4 : list X) :
  l1 ++ l2 = l3 ++ l4 -> List.length l1 = List.length l3 -> l1 = l3 /\ l2 = l4.
Proof.
  revert l3; induction l1 as [|x l1 IH]; intros [|y l3]; simpl; try discriminate; auto.
  intros H Hl; inversion H; subst; destruct (IH l3) as [-> ->]; auto.
Qed.

Lemma span_length tokens i j :
  i <= j < List.length tokens -> List.length (span tokens i j) = j - i + 1.
Proof. intros H; unfold span; rewrite length_firstn, length_skipn; lia. Qed.

Lemma span_single tokens i : i < List.length tokens -> span tokens i i = [nth i tokens []].
Proof.
  revert i; induction tokens as [|t r IH]; intros [|i] H; simpl in *; try lia.
  - reflexivity.
  - exact (IH i ltac:(lia)).
Qed.

Lemma span_app tokens i k j :
  i <= k < j -> span tokens i k ++ span tokens (k + 1) j = span tokens i j.
Proof.
  intros H; unfold span.
  replace (j - i + 1) with ((k - i + 1) + (j - (k + 1) + 1)) by lia.
  rewrite (firstn_add (k - i + 1) (j - (k + 1) + 1)), skipn_skipn.
  replace (k - i + 1 + i) with (k + 1) by lia; reflexivity.
Qed.

Lemma span_full tokens : tokens <> [] -> span tokens 0 (List.length tokens - 1) = tokens.
Proof.
  intros H; unfold span; simpl; rewrite firstn_all2; auto.
  destruct tokens; [congruence|simpl; lia].
Qed.

Lemma span_split tokens i j u v :
  i <= j < List.length tokens -> span tokens i j = u ++ v -> u <> [] -> v <> [] ->
  let k := i + List.length u - 1 in
  i <= k < j /\ u = span tokens i k /\ v = span tokens (k + 1) j.
Proof.
  intros Hij He Hu Hv k.
  assert (Hl := span_length _ _ _ Hij); rewrite He, length_app in Hl.
  destruct u; [congruence|]; destruct v; [congruence|]; simpl in Hl.
  assert (Hk : i <= k < j) by (unfold k; simpl; lia).
  split; [exact Hk|].
  rewrite <- (span_app tokens i k j Hk) in He.
  apply app_same_length in He as [E1 E2]; [split; congruence|].
  rewrite span_length by lia; unfold k; simpl; lia.
Qed.

Lemma derives_nonempty g A u : derives g A u -> 1 <= List.length u.
Proof. induction 1; simpl; rewrite ?length_app; lia. Qed.

Lemma derives_single g A t : derives g A [t] -> In [t] (get_rules g A).
Proof.
  intros H; remember [t] as w eqn:Ew; destruct H as [A' t' Hp|A' B C u v Hp Hu Hv].
  - inversion Ew; subst; exact Hp.
  - apply derives_nonempty in Hu; apply derives_nonempty in Hv.
    apply (f_equal (@List.length jstr)) in Ew; rewrite length_app in Ew; simpl in Ew; lia.
Qed.

(** Soundness: every variable in a cell derives the cell's span. *)
Definition sound (g : grammar) (tokens : list jstr) (s : cstate) : Prop :=
  forall i j A, In A (tbl s i j) ->
    i <= j < List.length tokens /\ derives g A (span tokens i j).

Lemma sound_record g tokens s i j A r :
  sound g tokens s -> i <= j < List.length tokens -> derives g A (span tokens i j) ->
  sound g tokens (record_cell i j A r s).
Proof.
  intros Hs Hij Hd a b x Hx; apply record_cell_tbl in Hx as [[-> [-> ->]]|Hx]; auto.
Qed.

Lemma cyk_fill_sound g tokens s : sound g tokens s -> sound g tokens (cyk_fill tokens g s).
Proof.
  intros H; unfold cyk_fill, upper_step.
  apply fold_left_ind_in; [intros t len _ H1|].
  - apply fold_left_ind_in; [intros u i _ H2|exact H1].
    unfold cell_step.
    apply fold_left_ind_in; [intros v k Hk H3|exact H2].
    apply in_seq in Hk.
    apply fold_left_ind_in; [intros w A _ H4|exact H3].
    apply fold_left_ind_in; [intros x p Hp H5|exact H4].
    destruct p as [|B [|C [|]]]; simpl; auto.
    destruct (set_has (tbl x i k) B) eqn:EB; simpl; auto.
    destruct (set_has (tbl x (k + 1) (i + len - 1)) C) eqn:EC; auto.
    apply set_has_In in EB, EC.
    destruct (H5 _ _ _ EB) as [Hik Hdb]; destruct (H5 _ _ _ EC) as [Hkj Hdc].
    apply sound_record; auto; [lia|].
    rewrite <- (span_app tokens i k (i + len - 1)) by lia.
    eapply der_bin; eauto.
  - apply fold_left_ind_in; [intros t i Hi H1|exact H].
    apply in_seq in Hi; unfold diag_step.
    apply fold_left_ind_in; [intros u A _ H2|exact H1].
    apply fold_left_ind_in; [intros v p Hp H3|exact H2].
    destruct p as [|p0 [|]]; simpl; auto.
    destruct (jeqb p0 (nth i tokens [])) eqn:E; auto.
    apply jeqb_eq in E; subst.
    apply sound_record; auto; [lia|].
    rewrite span_single by lia; constructor; auto.
Qed.

(** Completeness: every variable deriving a span of length at most [L] is in
    the span's cell. *)
Definition complete_upto (g : grammar) (tokens : list jstr) (L : nat) (s : cstate) : Prop :=
  forall i j A, i <= j < List.length tokens -> j - i + 1 <= L ->
    derives g A (span tokens i j) -> In A (tbl s i j).

Lemma complete_grows g tokens L s s' :
  complete_upto g tokens L s -> grows s s' -> complete_upto g tokens L s'.
Proof. intros H Hg i j A H1 H2 H3; apply Hg, H; auto. Qed.

Lemma diag_complete g tokens s :
  complete_upto g tokens 1 (fold_left (diag_step tokens g) (seq 0 (List.length tokens)) s).
Proof.
  intros i j A Hij Hl Hd; assert (j = i) by lia; subst j.
  rewrite span_single in Hd by lia; apply derives_single in Hd.
  set (Q := fun s' => In A (tbl s' i i)).
  assert (HQ : forall s1 s2, Q s1 -> grows s1 s2 -> Q s2) by (unfold Q; intros; auto).
  apply (fold_left_hit _ _ _ i Q); auto.
  { intros; apply diag_step_grows. }
  { apply in_seq; lia. }
  intros s1 _; unfold diag_step.
  apply (fold_left_hit _ _ _ A Q); auto.
  { intros; apply fold_left_grows; intros; apply diag_prod_grows. }
  { eapply get_rules_key; eauto. }
  intros s2 _; apply (fold_left_hit _ _ _ [nth i tokens []] Q); auto.
  { intros; apply diag_prod_grows. }
  intros s3 _; unfold Q; simpl; rewrite jeqb_refl.
  apply record_cell_tbl; left; auto.
Qed.

Lemma len_complete g tokens a s :
  2 <= a <= List.length tokens ->
  complete_upto g tokens (a - 1) s ->
  complete_upto g tokens a
    (fold_left (fun s i => cell_step g i (i + a - 1) s) (seq 0 (List.length tokens - a + 1)) s).
Proof.
  intros Ha Hc i j A Hij Hl Hd.
  destruct (Nat.eq_dec (j - i + 1) a) as [Heq|Hne].
  2:{ apply len_step_grows, Hc; auto; lia. }
  remember (span tokens i j) as w eqn:Ew.
  destruct Hd as [A t Hp|A B C u v Hp Hu Hv].
  { apply (f_equal (@List.length jstr)) in Ew; rewrite span_length in Ew by lia.
    simpl in Ew; lia. }
  assert (Hu1 := derives_nonempty _ _ _ Hu); assert (Hv1 := derives_nonempty _ _ _ Hv).
  destruct (span_split tokens i j u v Hij (eq_sym Ew)) as [Hk [Eu Ev]];
    [destruct u; simpl in *; [lia|discriminate]|destruct v; simpl in *; [lia|discriminate]|].
  set (k := i + List.length u - 1) in *.
  rewrite Eu in Hu; rewrite Ev in Hv.
  assert (HB : In B (tbl s i k)) by (apply Hc; [lia|lia|exact Hu]).
  assert (HC : In C (tbl s (k + 1) j)) by (apply Hc; [lia|lia|exact Hv]).
  set (Q := fun s' => In A (tbl s' i j)).
  assert (HQ : forall s1 s2, Q s1 -> grows s1 s2 -> Q s2) by (unfold Q; intros; auto).
  apply (fold_left_hit _ _ _ i Q); auto.
  { intros; apply cell_step_grows. }
  { apply in_seq; lia. }
  intros s1 G1; replace (i + a - 1) with j by lia; unfold cell_step.
  apply (fold_left_hit _ _ _ k Q); auto.
  { intros; apply fold_left_grows; intros; apply fold_left_grows; intros; apply bin_prod_grows. }
  { apply in_seq; lia. }
  intros s2 G2; apply (fold_left_hit _ _ _ A Q); auto.
  { intros; apply fold_left_grows; intros; apply bin_prod_grows. }
  { eapply get_rules_key; eauto. }
  intros s3 G3; apply (fold_left_hit _ _ _ [B; C] Q); auto.
  { intros; apply bin_prod_grows. }
  intros s4 G4; unfold Q; simpl.
  assert (Gs : grows s s4) by eauto using grows_trans.
  apply Gs, set_has_In in HB; apply Gs, set_has_In in HC.
  rewrite HB, HC; simpl; apply record_cell_tbl; left; auto.
Qed.


Lemma upper_complete g tokens m a s :
  2 <= a -> a + m <= List.length tokens + 1 ->
  complete_upto g tokens (a - 1) s ->
  complete_upto g tokens (a - 1 + m)
    (fold_left (fun s len =>
        fold_left (fun s i => cell_step g i (i + len - 1) s)
                  (seq 0 (List.length tokens - len + 1)) s)
       (seq a m) s).
Proof.
  revert a s; induction m as [|m IH]; intros a s Ha Hm Hc; simpl.
  - rewrite Nat.add_0_r; exact Hc.
  - replace (a - 1 + S m) with (S a - 1 + m) by lia.
    apply IH; [lia|lia|].
    replace (S a - 1) with a by lia.
    apply len_complete; auto; lia.
Qed.

Lemma cyk_fill_complete g tokens s :
  complete_upto g tokens (List.length tokens) (cyk_fill tokens g s).
Proof.
  destruct (List.length tokens) as [|n] eqn:En.
  { intros i j A H; lia. }
  unfold cyk_fill, upper_step; rewrite En.
  replace (S n) with (2 - 1 + (S n - 1)) at 1 by lia.
  rewrite <- En; apply upper_complete; [lia|lia|].
  apply diag_complete.
Qed.

(** The recognizer accepts exactly the derivable token sequences; this holds
    for every grammar, with single-symbol productions read as terminals. *)
Lemma cyk_accepts_iff g w :
  accepted (cykWithPointers w g) = true <-> derives g (startSymbol g) w.
Proof.
  unfold cykWithPointers.
  destruct (Nat.eqb_spec (List.length w) 0) as [E|E]; simpl.
  - split; [discriminate|intros H].
    apply derives_nonempty in H; lia.
  - rewrite set_has_In.
    assert (Hw : w <> []) by (intros ->; simpl in E; lia).
    split.
    + intros H; apply cyk_fill_sound in H as [_ Hd];
        [rewrite span_full in Hd; auto|intros ? ? ? []].
    + intros Hd; apply cyk_fill_complete; [lia|lia|rewrite span_full; auto].
Qed.

(** C1: for every grammar in Chomsky Normal Form and every token sequence
    [w], [cykWithPointers] accepts [w] if and only if the start symbol
    derives [w]. *)
Theorem cyk_correct g w :
  is_cnf g ->
  (accepted (cykWithPointers w g) = true <-> derives g (startSymbol g) w).
Proof. intros _; apply cyk_accepts_iff. Qed.

Lemma cnf_check_sound g : cnf_check g = true -> is_cnf g.
Proof.
  unfold cnf_check, is_cnf; intros H A ps p HA Hp.
  rewrite forallb_forall in H; specialize (H _ HA); simpl in H.
  rewrite forallb_forall in H; specialize (H _ Hp).
  destruct p as [|t [|C [|]]]; try discriminate.
  - left; exists t; split; auto; intros Ht.
    apply negb_true_iff in H; rewrite <- not_true_iff_false in H; apply H.
    apply existsb_exists; exists t; split; auto; apply jeqb_refl.
  - right; eauto.
Qed.

Lemma cyk_correct_witness :
  is_cnf (mkGrammar [] [] (js "S")
            [(js "S", [[js "A"; js "B"]; [js "B"; js "A"]]); (js "A", [[js "a"]]); (js "B", [[js "b"]])]) /\
  (accepted (cykWithPointers [js "a"; js "b"] (mkGrammar [] [] (js "S")
            [(js "S", [[js "A"; js "B"]; [js "B"; js "A"]]); (js "A", [[js "a"]]); (js "B", [[js "b"]])])) = true
   <-> derives (mkGrammar [] [] (js "S")
            [(js "S", [[js "A"; js "B"]; [js "B"; js "A"]]); (js "A", [[js "a"]]); (js "B", [[js "b"]])])
          (js "S") [js "a"; js "b"]).
Proof.
  split; [apply cnf_check_sound; vm_compute; reflexivity|].
  apply cyk_correct; apply cnf_check_sound; vm_compute; reflexivity.
Defined.

(** ** Backpointers and the parse tree *)

Lemma assoc_get_set {V} k k' (v : V) m :
  assoc_get k (assoc_set k' v m) = if jeqb k k' then Some v else assoc_get k m.
Proof.
  induction m as [|[k0 v0] m IH]; simpl; [destruct (jeqb k k'); reflexivity|].
  destruct (jeqb k' k0) eqn:E0; simpl.
  - apply jeqb_eq in E0; subst k0.
    destruct (jeqb k k'); reflexivity.
  - destruct (jeqb k k0) eqn:E1; [|exact IH].
    apply jeqb_eq in E1; subst k0.
    destruct (jeqb k k') eqn:E2; [|reflexivity].
    apply jeqb_eq in E2; subst k'; rewrite jeqb_refl in E0; discriminate.
Qed.

Lemma assoc_get_snoc {V} k k' (v : V) m :
  assoc_get k (m ++ [(k', v)]) =
  match assoc_get k m with Some x => Some x | None => if jeqb k k' then Some v else None end.
Proof.
  induction m as [|[k0 v0] m IH]; simpl; [reflexivity|].
  destruct (jeqb k k0); [reflexivity|exact IH].
Qed.

Lemma assoc_get_push A' A r m :
  assoc_get A' (map_push A r m) =
  if jeqb A' A
  then Some (match assoc_get A m with Some rs => rs ++ [r] | None => [r] end)
  else assoc_get A' m.
Proof.
  unfold map_push; destruct (assoc_get A m) eqn:E.
  - rewrite assoc_get_set; reflexivity.
  - rewrite assoc_get_snoc.
    destruct (jeqb A' A) eqn:E1.
    + apply jeqb_eq in E1; subst; rewrite E; reflexivity.
    + destruct (assoc_get A' m); reflexivity.
Qed.

(** A backpointer record justified by the table: a terminal record sits on
    the diagonal at the token, a binary record splits the cell into two
    cells holding its two variables. *)
Definition bp_valid (tokens : list jstr) (s : cstate) (i j : nat) (r : bp) : Prop :=
  match r with
  | BpTerminal tok => i = j /\ tok = nth i tokens []
  | BpBinary B C k => i <= k < j /\ In B (tbl s i k) /\ In C (tbl s (k + 1) j)
  end.

(** Every variable of a cell has a record, and every record is justified. *)
Definition back_inv (tokens : list jstr) (s : cstate) : Prop :=
  (forall i j A, In A (tbl s i j) -> exists r rs, assoc_get A (bk s i j) = Some (r :: rs)) /\
  (forall i j A rs, assoc_get A (bk s i j) = Some rs -> Forall (bp_valid tokens s i j) rs).

Lemma bp_valid_grows tokens s s' i j r :
  grows s s' -> bp_valid tokens s i j r -> bp_valid tokens s' i j r.
Proof.
  intros Hg; destruct r as [tok|B C k]; simpl; [auto|].
  intros [Hk [HB HC]]; auto.
Qed.

Lemma back_inv_record tokens s i j A r :
  back_inv tokens s -> bp_valid tokens s i j r ->
  back_inv tokens (record_cell i j A r s).
Proof.
  intros [Ha Hb] Hr.
  assert (Hg := record_cell_grows i j A r s).
  assert (Hbk : forall a b, bk (record_cell i j A r s) a b =
            if (a =? i) && (b =? j) then map_push A r (bk s i j) else bk s a b)
    by reflexivity.
  split.
  - intros a b x Hx; rewrite Hbk.
    destruct (Nat.eqb_spec a i), (Nat.eqb_spec b j); simpl; subst;
      try (apply record_cell_tbl in Hx as [[? [? ?]]|Hx]; [lia|now apply Ha]).
    rewrite assoc_get_push.
    destruct (jeqb x A) eqn:Ex.
    + destruct (assoc_get A (bk s i j)) as [[|r0 rs0]|]; simpl; eauto.
    + apply record_cell_tbl in Hx as [[_ [_ ->]]|Hx]; [rewrite jeqb_refl in Ex; discriminate|].
      now apply Ha.
  - intros a b x rs Hx; rewrite Hbk in Hx.
    destruct (Nat.eqb_spec a i), (Nat.eqb_spec b j); simpl in Hx; subst;
      try (eapply Forall_impl; [|exact (Hb _ _ _ _ Hx)]; intros; eapply bp_valid_grows; eauto).
    rewrite assoc_get_push in Hx.
    destruct (jeqb x A) eqn:Ex.
    + apply jeqb_eq in Ex; subst x.
      destruct (assoc_get A (bk s i j)) as [rs0|] eqn:E; injection Hx as <-.
      * apply Forall_app; split.
        -- eapply Forall_impl; [|exact (Hb _ _ _ _ E)]; intros; eapply bp_valid_grows; eauto.
        -- constructor; [eapply bp_valid_grows; eauto|constructor].
      * constructor; [eapply bp_valid_grows; eauto|constructor].
    + eapply Forall_impl; [|exact (Hb _ _ _ _ Hx)]; intros; eapply bp_valid_grows; eauto.
Qed.

Lemma cyk_fill_back_inv tokens g s : back_inv tokens s -> back_inv tokens (cyk_fill tokens g s).
Proof.
  intros H; unfold cyk_fill, upper_step.
  apply fold_left_ind_in; [intros t len _ H1|].
  - apply fold_left_ind_in; [intros u i _ H2|exact H1].
    unfold cell_step.
    apply fold_left_ind_in; [intros v k Hk H3|exact H2].
    apply in_seq in Hk.
    apply fold_left_ind_in; [intros w A _ H4|exact H3].
    apply fold_left_ind_in; [intros x p Hp H5|exact H4].
    destruct p as [|B [|C [|]]]; simpl; auto.
    destruct (set_has (tbl x i k) B) eqn:EB; simpl; auto.
    destruct (set_has (tbl x (k + 1) (i + len - 1)) C) eqn:EC; auto.
    apply set_has_In in EB, EC.
    apply back_inv_record; auto; simpl; repeat split; auto; lia.
  - apply fold_left_ind_in; [intros u i _ H2|exact H].
    unfold diag_step.
    apply fold_left_ind_in; [intros v A _ H3|exact H2].
    apply fold_left_ind_in; [intros w p _ H4|exact H3].
    destruct p as [|p0 [|]]; simpl; auto.
    destruct (jeqb p0 _); auto.
    apply back_inv_record; auto; simpl; auto.
Qed.

Lemma back_inv_empty tokens : back_inv tokens empty_cstate.
Proof. split; simpl; [intros ? ? ? []|intros ? ? ? ? H; discriminate]. Qed.

(** [choose] succeeds on every variable of a cell once enough fuel is given,
    with no bare node and with the cell's span as its leaves. *)
Lemma choose_complete g tokens s fuel A i j :
  back_inv tokens s -> sound g tokens s ->
  In A (tbl s i j) -> j - i + 1 <= fuel ->
  exists t, choose (materialize (List.length tokens) (bk s)) fuel A i j = Some t /\
            no_bare t = true /\ leaves t = span tokens i j.
Proof.
  intros [Ha Hb] Hs; revert A i j.
  induction fuel as [|f IH]; intros A i j HA Hf; [lia|].
  destruct (Hs _ _ _ HA) as [Hij _].
  simpl; rewrite cell_at_materialize by lia.
  destruct (Ha _ _ _ HA) as [r [rs E]]; rewrite E.
  assert (Hv := Hb _ _ _ _ E); inversion Hv as [|r' rs' Hr _]; subst.
  destruct r as [tok|B C k]; simpl in Hr.
  - destruct Hr as [<- ->]; exists (Leaf A (nth i tokens [])); repeat split.
    simpl; rewrite span_single by lia; reflexivity.
  - destruct Hr as [Hk [HB HC]].
    destruct (IH B i k HB ltac:(lia)) as [l [El [Nl Ll]]].
    destruct (IH C (k + 1) j HC ltac:(lia)) as [r [Er [Nr Lr]]].
    rewrite El, Er; exists (Node A l r); repeat split.
    + simpl; rewrite Nl, Nr; reflexivity.
    + simpl; rewrite Ll, Lr; apply span_app; lia.
Qed.

(** C10: when [cykWithPointers] accepts a token sequence, [buildParseTree]
    on its backpointers returns a tree (not [null], no exception) in which
    no bare [{label}] node occurs, and whose leaves, read from left to
    right, are exactly the tokens. *)
Theorem parse_tree_yield g w :
  accepted (cykWithPointers w g) = true ->
  exists t, buildParseTree g w (res_back (cykWithPointers w g)) = Some (Some t) /\
            no_bare t = true /\ leaves t = w.
Proof.
  unfold cykWithPointers.
  destruct (Nat.eqb_spec (List.length w) 0) as [E|E]; simpl; [discriminate|].
  rewrite set_has_In; intros HS.
  assert (Hw : w <> []) by (intros ->; simpl in E; lia).
  assert (Hinv := cyk_fill_back_inv w g _ (back_inv_empty w)).
  assert (Hsnd := cyk_fill_sound g w empty_cstate ltac:(intros ? ? ? [])).
  unfold buildParseTree.
  destruct (Nat.eqb_spec (List.length w) 0) as [E'|E']; [lia|].
  rewrite cell_at_materialize by lia.
  destruct (proj1 Hinv _ _ _ HS) as [r [rs ER]]; rewrite ER.
  destruct (choose_complete g w _ (List.length w) _ 0 (List.length w - 1) Hinv Hsnd HS ltac:(lia))
    as [t [Et [Nt Lt]]].
  rewrite Et; exists t; repeat split; auto.
  rewrite Lt; apply span_full; exact Hw.
Qed.

Lemma parse_tree_yield_witness :
  accepted (cykWithPointers [js "a"; js "b"] (mkGrammar [] [] (js "S")
            [(js "S", [[js "A"; js "B"]]); (js "A", [[js "a"]]); (js "B", [[js "b"]])])) = true /\
  exists t, buildParseTree (mkGrammar [] [] (js "S")
            [(js "S", [[js "A"; js "B"]]); (js "A", [[js "a"]]); (js "B", [[js "b"]])])
            [js "a"; js "b"]
            (res_back (cykWithPointers [js "a"; js "b"] (mkGrammar [] [] (js "S")
            [(js "S", [[js "A"; js "B"]]); (js "A", [[js "a"]]); (js "B", [[js "b"]])]))) = Some (Some t) /\
          no_bare t = true /\ leaves t = [js "a"; js "b"].
Proof.
  split; [vm_compute; reflexivity|].
  apply parse_tree_yield; vm_compute; reflexivity.
Defined.

(** ** The tables and backpointers returned by [cykWithPointers] *)

Lemma cell_at_materialize_inv {X} n (f : nat -> nat -> X) i j x :
  cell_at (materialize n f) i j = Some x -> i < n /\ j < n /\ x = f i j.
Proof.
  unfold cell_at, materialize; rewrite nth_error_map, nth_error_seq.
  destruct (Nat.ltb_spec i n); simpl; [|discriminate].
  rewrite nth_error_map, nth_error_seq.
  destruct (Nat.ltb_spec j n); simpl; [|discriminate].
  intros Hx; injection Hx as <-; auto.
Qed.

Lemma nth_materialize {X} n (f : nat -> nat -> X) d i j :
  i < n -> j < n -> nth j (nth i (materialize n f) []) d = f i j.
Proof.
  intros Hi Hj; assert (H := cell_at_materialize n f i j Hi Hj); unfold cell_at in H.
  destruct (nth_error (materialize n f) i) as [row|] eqn:E1; [|discriminate].
  rewrite (nth_error_nth _ _ _ E1); exact (nth_error_nth _ _ _ H).
Qed.

(** Any property kept by every recording step holds after the fill. *)
Lemma cyk_fill_record_ind (P : cstate -> Prop) tokens g s :
  (forall s i j A r, P s -> P (record_cell i j A r s)) ->
  P s -> P (cyk_fill tokens g s).
Proof.
  intros Hr H; unfold cyk_fill, upper_step.
  apply fold_left_ind_in; [intros t len _ H1|].
  - apply fold_left_ind_in; [intros u i _ H2|exact H1].
    unfold cell_step.
    apply fold_left_ind_in; [intros v k _ H3|exact H2].
    apply fold_left_ind_in; [intros w A _ H4|exact H3].
    apply fold_left_ind_in; [intros x p _ H5|exact H4].
    destruct p as [|B [|C [|]]]; simpl; auto.
    destruct (_ && _); auto.
  - apply fold_left_ind_in; [intros u i _ H2|exact H].
    unfold diag_step.
    apply fold_left_ind_in; [intros v A _ H3|exact H2].
    apply fold_left_ind_in; [intros w p _ H4|exact H3].
    destruct p as [|p0 [|]]; simpl; auto.
    destruct (jeqb p0 _); auto.
Qed.

(** Every key of a backpointer Map is in the Set of the same cell. *)
Definition keys_in_tbl (s : cstate) : Prop :=
  forall i j A rs, assoc_get A (bk s i j) = Some rs -> In A (tbl s i j).

Lemma keys_in_tbl_record s i j A r :
  keys_in_tbl s -> keys_in_tbl (record_cell i j A r s).
Proof.
  intros H a b x rs Hx; apply record_cell_tbl.
  unfold record_cell, upd in Hx; simpl in Hx.
  destruct (Nat.eqb_spec a i), (Nat.eqb_spec b j); simpl in Hx; subst;
    try (right; exact (H _ _ _ _ Hx)).
  rewrite assoc_get_push in Hx; destruct (jeqb x A) eqn:E.
  - apply jeqb_eq in E; left; auto.
  - right; exact (H _ _ _ _ Hx).
Qed.

Lemma set_add_NoDup a l : NoDup l -> NoDup (set_add a l).
Proof.
  unfold set_add; destruct (existsb (jeqb a) l) eqn:E; auto.
  intros H; assert (Ha : ~ In a l).
  { intros Hin; rewrite <- not_true_iff_false in E; apply E, existsb_exists.
    exists a; split; auto; apply jeqb_refl. }
  clear E; induction l as [|b l IH]; simpl; [constructor; [intros []|constructor]|].
  inversion H as [|? ? Hb Hl]; subst; constructor.
  - rewrite in_app_iff; simpl; intros [Hin|[<-|[]]]; [exact (Hb Hin)|apply Ha; left; reflexivity].
  - apply IH; [exact Hl|intros Hin; apply Ha; right; exact Hin].
Qed.

Definition nodup_tbl (s : cstate) : Prop := forall i j, NoDup (tbl s i j).

Lemma nodup_tbl_record s i j A r : nodup_tbl s -> nodup_tbl (record_cell i j A r s).
Proof.
  intros H a b; unfold record_cell, upd; simpl.
  destruct (_ && _); [apply set_add_NoDup|]; apply H.
Qed.

(** The final table of a non-empty token sequence, cell by cell. *)
Lemma fill_cell_iff g w i j A :
  i <= j < List.length w ->
  In A (tbl (cyk_fill w g empty_cstate) i j) <-> derives g A (span w i j).
Proof.
  intros H; split.
  - intros HA; exact (proj2 (cyk_fill_sound g w empty_cstate (fun _ _ _ Hf => match Hf with end) _ _ _ HA)).
  - intros Hd; exact (cyk_fill_complete g w empty_cstate i j A H ltac:(lia) Hd).
Qed.

Lemma fill_lower_empty g w i j : j < i -> tbl (cyk_fill w g empty_cstate) i j = [].
Proof. intros H; symmetry; exact (proj1 (cyk_fill_lower w g empty_cstate i j H)). Qed.

(** Each backpointer record of [back[i][j]] is justified: a terminal record
    sits on the diagonal and carries the token [tokens[i]]; a binary record
    [{left: B, right: C, split: k}] has [i <= k < j], [B] deriving
    [tokens[i..k]] and [C] deriving [tokens[k+1..j]]. A variable is in
    [table[i][j]] exactly when it has a non-empty list of records there. *)
Theorem backpointers_justified g w i j m cell :
  cell_at (res_back (cykWithPointers w g)) i j = Some m ->
  cell_at (res_table (cykWithPointers w g)) i j = Some cell ->
  (forall A, In A cell <-> exists r rs, assoc_get A m = Some (r :: rs)) /\
  (forall A rs, assoc_get A m = Some rs ->
     Forall (fun r => match r with
                      | BpTerminal tok => i = j /\ tok = nth i w []
                      | BpBinary B C k =>
                          i <= k < j /\ derives g B (span w i k) /\ derives g C (span w (k + 1) j)
                      end) rs).
Proof.
  unfold cykWithPointers.
  destruct (Nat.eqb_spec (List.length w) 0) as [E|E]; simpl.
  { unfold cell_at; simpl; destruct i; discriminate. }
  intros Hm Hc.
  apply cell_at_materialize_inv in Hm as [Hi [Hj ->]].
  apply cell_at_materialize_inv in Hc as [_ [_ ->]].
  set (s := cyk_fill w g empty_cstate).
  assert (Hinv : back_inv w s) by apply cyk_fill_back_inv, back_inv_empty.
  assert (Hk : keys_in_tbl s).
  { apply cyk_fill_record_ind; [apply keys_in_tbl_record|intros ? ? ? ? Hf; discriminate]. }
  assert (Hs : sound g w s) by (apply cyk_fill_sound; intros ? ? ? []).
  split.
  - intros A; split; [apply (proj1 Hinv)|intros [r [rs Hr]]; eapply Hk; eauto].
  - intros A rs Hrs.
    eapply Forall_impl; [|exact (proj2 Hinv _ _ _ _ Hrs)].
    intros [tok|B C k]; simpl; [auto|intros [Hk' [HB HC]]].
    split; [exact Hk'|split; [exact (proj2 (Hs _ _ _ HB))|exact (proj2 (Hs _ _ _ HC))]].
Qed.

Lemma backpointers_justified_witness :
  cell_at (res_back (cykWithPointers [js "a"; js "b"] exampleGrammar)) 0 1
    = Some [(js "S", [BpBinary (js "A") (js "B") 0])] /\
  cell_at (res_table (cykWithPointers [js "a"; js "b"] exampleGrammar)) 0 1 = Some [js "S"] /\
  ((forall A, In A [js "S"] <-> exists r rs, assoc_get A [(js "S", [BpBinary (js "A") (js "B") 0])] = Some (r :: rs)) /\
   (forall A rs, assoc_get A [(js "S", [BpBinary (js "A") (js "B") 0])] = Some rs ->
     Forall (fun r => match r with
                      | BpTerminal tok => 0 = 1 /\ tok = nth 0 [js "a"; js "b"] []
                      | BpBinary B C k =>
                          0 <= k < 1 /\ derives exampleGrammar B (span [js "a"; js "b"] 0 k) /\
                          derives exampleGrammar C (span [js "a"; js "b"] (k + 1) 1)
                      end) rs)).
Proof.
  split; [vm_compute; reflexivity|split; [vm_compute; reflexivity|]].
  apply (backpointers_justified exampleGrammar [js "a"; js "b"] 0 1); vm_compute; reflexivity.
Defined.

(** [buildParseTree] on the backpointers of [cykWithPointers] never throws
    (its result is never [None], the model of an exception), and returns
    [null] exactly when the token sequence is rejected. *)
Theorem parse_tree_null_iff_rejected g w :
  buildParseTree g w (res_back (cykWithPointers w g)) <> None /\
  (buildParseTree g w (res_back (cykWithPointers w g)) = Some None <->
   accepted (cykWithPointers w g) = false).
Proof.
  assert (Hacc : accepted (cykWithPointers w g) = true ->
                 exists t, buildParseTree g w (res_back (cykWithPointers w g)) = Some (Some t)).
  { unfold cykWithPointers.
    destruct (Nat.eqb_spec (List.length w) 0) as [E|E]; simpl; [discriminate|].
    rewrite set_has_In; intros HS.
    assert (Hinv := cyk_fill_back_inv w g _ (back_inv_empty w)).
    assert (Hsnd := cyk_fill_sound g w empty_cstate ltac:(intros ? ? ? [])).
    unfold buildParseTree.
    destruct (Nat.eqb_spec (List.length w) 0) as [E'|E']; [lia|].
    rewrite cell_at_materialize by lia.
    destruct (proj1 Hinv _ _ _ HS) as [r [rs ER]]; rewrite ER.
    destruct (choose_complete g w _ (List.length w) _ 0 (List.length w - 1) Hinv Hsnd HS ltac:(lia))
      as [t [Et _]].
    rewrite Et; exists t; reflexivity. }
  assert (Hrej : accepted (cykWithPointers w g) = false ->
                 buildParseTree g w (res_back (cykWithPointers w g)) = Some None).
  { unfold cykWithPointers, buildParseTree.
    destruct (Nat.eqb_spec (List.length w) 0) as [E|E]; simpl; [reflexivity|].
    intros HS; rewrite cell_at_materialize by lia.
    destruct (assoc_get (startSymbol g) _) eqn:Eb; [|reflexivity].
    assert (Hk : keys_in_tbl (cyk_fill w g empty_cstate)).
    { apply cyk_fill_record_ind; [apply keys_in_tbl_record|intros ? ? ? ? Hf; discriminate]. }
    apply Hk, set_has_In in Eb; congruence. }
  destruct (accepted (cykWithPointers w g)) eqn:Ea.
  - destruct (Hacc eq_refl) as [t Et]; rewrite Et; split; [discriminate|split; discriminate].
  - rewrite (Hrej eq_refl); split; [discriminate|split; reflexivity].
Qed.

(** The text of cell [(row, col)] of the rendered table, for the table of a
    token sequence of length [n] and [row, col < n]: ["-"] below the
    diagonal; on and above it, the variables deriving [tokens[row..col]],
    each once, joined by [", "], or ["-"] when that text is empty. *)
Theorem table_cell_text g w row col :
  row < List.length w -> col < List.length w ->
  (col < row -> cell_text (res_table (cykWithPointers w g)) row col = js "-") /\
  (row <= col ->
   exists vars, NoDup vars /\ (forall A, In A vars <-> derives g A (span w row col)) /\
     cell_text (res_table (cykWithPointers w g)) row col =
       if is_empty (join (js ", ") vars) then js "-" else join (js ", ") vars).
Proof.
  intros Hr Hc; unfold cykWithPointers.
  destruct (Nat.eqb_spec (List.length w) 0) as [E|E]; [lia|]; simpl.
  unfold cell_text; rewrite nth_materialize by lia.
  split.
  - intros Hlt; destruct (Nat.leb_spec row col); [lia|reflexivity].
  - intros Hle; exists (tbl (cyk_fill w g empty_cstate) row col); split; [|split].
    + apply (cyk_fill_record_ind nodup_tbl); [intros; apply nodup_tbl_record; auto|intros ? ?; constructor].
    + intros A; apply fill_cell_iff; lia.
    + destruct (Nat.leb_spec row col); [reflexivity|lia].
Qed.

Lemma table_cell_text_witness :
  0 < List.length [js "a"; js "b"] /\ 1 < List.length [js "a"; js "b"] /\
  cell_text (res_table (cykWithPointers [js "a"; js "b"] exampleGrammar)) 0 1 = js "S" /\
  ((1 < 0 -> cell_text (res_table (cykWithPointers [js "a"; js "b"] exampleGrammar)) 0 1 = js "-") /\
   (0 <= 1 ->
    exists vars, NoDup vars /\ (forall A, In A vars <-> derives exampleGrammar A (span [js "a"; js "b"] 0 1)) /\
      cell_text (res_table (cykWithPointers [js "a"; js "b"] exampleGrammar)) 0 1 =
        if is_empty (join (js ", ") vars) then js "-" else join (js ", ") vars)).
Proof.
  split; [simpl; lia|split; [simpl; lia|split; [vm_compute; reflexivity|]]].
  apply table_cell_text; simpl; lia.
Defined.

(** ** Invariants of [parseGrammarFromText] *)

(** [rules[A]] of the parser state, [[]] for a missing key. *)
Definition lookup (st : pstate) (A : jstr) : list production :=
  match assoc_get A (ps_rules st) with Some ps => ps | None => [] end.

(** A production of one non-empty symbol or of two non-empty symbols. *)
Definition prod_ok (p : production) : Prop :=
  (exists t, p = [t] /\ t <> []) \/ (exists B C, p = [B; C] /\ B <> [] /\ C <> []).

(** The invariant without the condition on the terminals. *)
Definition ps_inv_rules (st : pstate) : Prop :=
  (forall A p, In p (lookup st A) -> prod_ok p) /\
  (forall A ps, assoc_get A (ps_rules st) = Some ps -> In A (ps_vars st)) /\
  (forall A B C, In [B; C] (lookup st A) -> In B (ps_vars st) /\ In C (ps_vars st)) /\
  (forall A t, In [t] (lookup st A) -> In t (ps_terms st) \/ In t (ps_vars st)) /\
  (forall k, In k proto_names -> assoc_get k (ps_rules st) = None).

Definition ps_inv (st : pstate) : Prop :=
  ps_inv_rules st /\ (forall t, In t (ps_terms st) -> exists A, In [t] (lookup st A)).

Lemma ps_inv_rules_mono st st' :
  ps_rules st' = ps_rules st -> incl (ps_vars st) (ps_vars st') ->
  incl (ps_terms st) (ps_terms st') -> ps_inv_rules st -> ps_inv_rules st'.
Proof.
  unfold ps_inv_rules, lookup; intros Er Hv Ht [H1 [H2 [H3 [H4 H5]]]]; rewrite Er.
  split; [exact H1|split; [intros; apply Hv; eauto|split; [|split; [|exact H5]]]].
  - intros A B C H; destruct (H3 A B C H); auto.
  - intros A t H; destruct (H4 A t H); [left; apply Ht|right; apply Hv]; auto.
Qed.

Lemma set_add_incl a l : incl l (set_add a l).
Proof. intros x Hx; apply set_add_In; auto. Qed.

Lemma push_rule_spec left p st st' :
  push_rule left p st = Some st' ->
  exists ps, assoc_get left (ps_rules st) = Some ps /\
    st' = with_rules st (assoc_set left (ps ++ [p]) (ps_rules st)).
Proof.
  unfold push_rule; destruct (assoc_get left (ps_rules st)) eqn:E; [|discriminate].
  intros H; injection H as <-; eauto.
Qed.

Lemma lookup_push left p st ps A :
  assoc_get left (ps_rules st) = Some ps ->
  lookup (with_rules st (assoc_set left (ps ++ [p]) (ps_rules st))) A =
  if jeqb A left then lookup st left ++ [p] else lookup st A.
Proof.
  intros E; unfold lookup; simpl; rewrite assoc_get_set, E.
  destruct (jeqb A left); reflexivity.
Qed.

Lemma push_inv left p st st' :
  push_rule left p st = Some st' -> ps_inv_rules st -> prod_ok p ->
  (forall B C, p = [B; C] -> In B (ps_vars st) /\ In C (ps_vars st)) ->
  (forall t, p = [t] -> In t (ps_terms st) \/ In t (ps_vars st)) ->
  (forall t, In t (ps_terms st) -> (exists A, In [t] (lookup st A)) \/ p = [t]) ->
  ps_inv st'.
Proof.
  intros Hp [H1 [H2 [H3 [H4 H5]]]] Hok Hpair Hsing Hterm.
  destruct (push_rule_spec _ _ _ _ Hp) as [ps [E ->]].
  assert (Hl := fun A => lookup_push left p st ps A E).
  assert (Hin : forall A q, In q (lookup (with_rules st (assoc_set left (ps ++ [p]) (ps_rules st))) A) ->
                  In q (lookup st A) \/ q = p).
  { intros A q Hq; rewrite Hl in Hq; destruct (jeqb A left) eqn:EA.
    - apply in_app_iff in Hq as [Hq|[<-|[]]]; [left|right]; auto.
      apply jeqb_eq in EA; subst; auto.
    - left; exact Hq. }
  split; [split; [|split; [|split; [|split]]]|]; simpl.
  - intros A q Hq; destruct (Hin A q Hq) as [Hq'| ->]; eauto.
  - intros A qs HA; rewrite assoc_get_set in HA.
    destruct (jeqb A left) eqn:EA; [apply jeqb_eq in EA; subst; eauto|eauto].
  - intros A B C Hq; destruct (Hin A _ Hq) as [Hq'|Hq']; eauto.
  - intros A t Hq; destruct (Hin A _ Hq) as [Hq'|Hq']; eauto.
  - intros k Hk; rewrite assoc_get_set.
    destruct (jeqb k left) eqn:Ek; [|auto].
    apply jeqb_eq in Ek; subst; rewrite H5 in E; [discriminate|exact Hk].
  - intros t Ht; destruct (Hterm t Ht) as [[A HA]| ->].
    + exists A; rewrite Hl; destruct (jeqb A left) eqn:EA; [|exact HA].
      apply jeqb_eq in EA; subst; apply in_app_iff; left; exact HA.
    + exists left; rewrite Hl, jeqb_refl; apply in_app_iff; right; left; reflexivity.
Qed.

Lemma push_rule_vars left p st st' :
  push_rule left p st = Some st' -> ps_vars st' = ps_vars st /\ ps_terms st' = ps_terms st.
Proof. intros H; destruct (push_rule_spec _ _ _ _ H) as [ps [_ ->]]; auto. Qed.

Lemma push_inv_terms left tok st st' :
  ps_inv st -> tok <> [] ->
  push_rule left [tok] (with_terms st (set_add tok (ps_terms st))) = Some st' -> ps_inv st'.
Proof.
  intros [Hr Ht] Hne Hp; eapply push_inv; [exact Hp| | | | |].
  - eapply ps_inv_rules_mono; [| | |exact Hr]; simpl; auto using incl_refl, set_add_incl.
  - left; eauto.
  - intros B C E; discriminate.
  - intros t E; injection E as <-; left; apply set_add_In; auto.
  - intros t Hin; apply set_add_In in Hin as [->|Hin]; [right; reflexivity|left; exact (Ht t Hin)].
Qed.

Lemma push_inv_vars left p st vs st' :
  ps_inv st -> prod_ok p -> incl (ps_vars st) vs ->
  (forall B C, p = [B; C] -> In B vs /\ In C vs) -> (forall t, p = [t] -> In t vs) ->
  push_rule left p (with_vars st vs) = Some st' -> ps_inv st'.
Proof.
  intros [Hr Ht] Hok Hv Hpair Hsing Hp; eapply push_inv; [exact Hp| | | | |].
  - eapply ps_inv_rules_mono; [| | |exact Hr]; simpl; auto using incl_refl.
  - exact Hok.
  - exact Hpair.
  - intros t E; right; exact (Hsing t E).
  - intros t Hin; left; exact (Ht t Hin).
Qed.

Lemma quoted_nonempty s x : quoted s = Some x -> x <> [].
Proof.
  unfold quoted; cbv zeta.
  repeat match goal with
         | |- match ?y with _ => _ end = _ -> _ =>
             let E := fresh "E" in destruct y eqn:E; try discriminate
         end.
  intros H; injection H as <-.
  match goal with
  | E : negb (is_empty ?r) && _ = true |- _ =>
      apply andb_true_iff in E as [E _]; destruct r; [discriminate|congruence]
  end.
Qed.

Lemma filter_nonempty_In x l : In x (filter_nonempty l) -> x <> [].
Proof. unfold filter_nonempty; rewrite filter_In; intros [_ H]; destruct x; [discriminate|congruence]. Qed.

Lemma upper_pair_spec s B C : upper_pair s = Some (B, C) -> exists b c, B = [b] /\ C = [c].
Proof.
  unfold upper_pair; destruct s as [|b [|c [|]]]; try discriminate.
  destruct (_ && _); [intros H; injection H as <- <-; eauto|discriminate].
Qed.

Lemma process_prod_inv left prod st st' :
  ps_inv st -> In left (ps_vars st) -> process_prod left prod st = Some st' ->
  ps_inv st' /\ In left (ps_vars st').
Proof.
  intros Hi Hl; unfold process_prod.
  destruct (quoted (trim prod)) as [token|] eqn:Eq.
  { intros Hp; split; [eapply push_inv_terms; eauto using quoted_nonempty|].
    apply push_rule_vars in Hp as [-> _]; exact Hl. }
  destruct (filter_nonempty (split_ws (trim prod))) as [|sym [|C [|]]] eqn:Ef;
    try (intros H; injection H as <-; auto; fail).
  - assert (Hs : sym <> []) by (apply (filter_nonempty_In sym (split_ws (trim prod))); rewrite Ef; left; auto).
    destruct (is_lower_letter sym).
    { intros Hp; split; [eapply push_inv_terms; eauto|].
      apply push_rule_vars in Hp as [-> _]; exact Hl. }
    destruct (upper_pair sym) as [[B C]|] eqn:Eu.
    + destruct (upper_pair_spec _ _ _ Eu) as [b [c [-> ->]]].
      intros Hp; split.
      * eapply push_inv_vars; [exact Hi| | | | |exact Hp].
        -- right; exists [b], [c]; repeat split; discriminate.
        -- intros x Hx; apply set_add_In; right; apply set_add_In; right; exact Hx.
        -- intros B C E; injection E as <- <-; split; apply set_add_In;
             [right; apply set_add_In; left|left]; reflexivity.
        -- intros t E; discriminate.
      * apply push_rule_vars in Hp as [-> _]; simpl.
        apply set_add_In; right; apply set_add_In; right; exact Hl.
    + intros Hp; split.
      * eapply push_inv_vars; [exact Hi| | | | |exact Hp].
        -- left; eauto.
        -- apply set_add_incl.
        -- intros B C E; discriminate.
        -- intros t E; injection E as <-; apply set_add_In; left; reflexivity.
      * apply push_rule_vars in Hp as [-> _]; simpl; apply set_add_In; right; exact Hl.
  - rename sym into B.
    assert (HB : B <> []) by (apply (filter_nonempty_In B (split_ws (trim prod))); rewrite Ef; left; auto).
    assert (HC : C <> []) by (apply (filter_nonempty_In C (split_ws (trim prod))); rewrite Ef; right; left; auto).
    intros Hp; split.
    + eapply push_inv_vars; [exact Hi| | | | |exact Hp].
      * right; exists B, C; auto.
      * intros x Hx; apply set_add_In; right; apply set_add_In; right; exact Hx.
      * intros B' C' E; injection E as <- <-; split; apply set_add_In;
          [right; apply set_add_In; left|left]; reflexivity.
      * intros t E; discriminate.
    + apply push_rule_vars in Hp as [-> _]; simpl.
      apply set_add_In; right; apply set_add_In; right; exact Hl.
Qed.

Lemma process_prods_inv left prods st st' :
  ps_inv st -> In left (ps_vars st) -> process_prods left prods st = Some st' ->
  ps_inv st' /\ In left (ps_vars st').
Proof.
  revert st; induction prods as [|p prods IH]; simpl; intros st Hi Hl.
  - intros H; injection H as <-; auto.
  - destruct (process_prod left p st) as [st1|] eqn:E; [|discriminate].
    destruct (process_prod_inv _ _ _ _ Hi Hl E) as [Hi1 Hl1]; apply IH; auto.
Qed.

Lemma lookup_ensure st left A :
  lookup (with_rules st (ensure_key left (ps_rules st))) A = lookup st A.
Proof.
  unfold lookup, ensure_key, with_rules; cbn [ps_rules].
  destruct (assoc_get left (ps_rules st)) eqn:E; [reflexivity|].
  destruct (existsb (jeqb left) proto_names); [reflexivity|].
  rewrite assoc_get_snoc; destruct (assoc_get A (ps_rules st)); [reflexivity|].
  destruct (jeqb A left); reflexivity.
Qed.

Lemma add_line_inv idx left right st st' :
  ps_inv st -> add_line idx left right st = Some st' -> ps_inv st'.
Proof.
  intros Hi; unfold add_line.
  set (st1 := if (idx =? 0) && negb (is_empty left) then with_start st left else st).
  assert (Hi1 : ps_inv st1) by (unfold st1; destruct (_ && _); exact Hi).
  set (st2 := with_rules st1 (ensure_key left (ps_rules st1))).
  set (st3 := with_vars st2 (set_add left (ps_vars st2))).
  intros Hp; apply (process_prods_inv left (map trim (split_on 124%N right)) st3); [|simpl; apply set_add_In; left; reflexivity|exact Hp].
  destruct Hi1 as [[H1 [H2 [H3 [H4 H5]]]] Ht].
  assert (Hl : forall A, lookup st3 A = lookup st1 A) by (intros; apply lookup_ensure).
  split; [split; [|split; [|split; [|split]]]|].
  - intros A p; rewrite Hl; eauto.
  - intros A ps HA; simpl; apply set_add_In.
    unfold st3, st2 in HA; simpl in HA; unfold ensure_key in HA.
    destruct (assoc_get left (ps_rules st1)) eqn:E; [right; eauto|].
    destruct (existsb (jeqb left) proto_names); [right; eauto|].
    rewrite assoc_get_snoc in HA; destruct (assoc_get A (ps_rules st1)) eqn:EA; [right; eauto|].
    destruct (jeqb A left) eqn:EAl; [left; apply jeqb_eq; exact EAl|discriminate].
  - intros A B C; rewrite Hl; intros H; destruct (H3 _ _ _ H); simpl; split; apply set_add_In; auto.
  - intros A t; rewrite Hl; intros H; destruct (H4 _ _ H); simpl; auto.
    right; apply set_add_In; auto.
  - intros k Hk; unfold st3, st2; simpl; unfold ensure_key.
    destruct (assoc_get left (ps_rules st1)) eqn:E; [auto|].
    destruct (existsb (jeqb left) proto_names) eqn:Ep; [auto|].
    rewrite assoc_get_snoc, H5 by exact Hk.
    destruct (jeqb k left) eqn:Ek; [|reflexivity].
    apply jeqb_eq in Ek; subst k.
    rewrite <- not_true_iff_false in Ep; exfalso; apply Ep, existsb_exists.
    exists left; split; [exact Hk|apply jeqb_refl].
  - intros t Htt; destruct (Ht t Htt) as [A HA]; exists A; rewrite Hl; exact HA.
Qed.

Lemma process_lines_inv idx lines st st' :
  ps_inv st -> process_lines idx lines st = Some st' -> ps_inv st'.
Proof.
  revert idx st; induction lines as [|l lines IH]; simpl; intros idx st Hi.
  - intros H; injection H as <-; exact Hi.
  - destruct (process_line idx l st) as [st1|] eqn:E; [|discriminate].
    apply IH; unfold process_line in E.
    destruct (line_splitter l); [eapply add_line_inv; eauto|injection E as <-; exact Hi].
Qed.

Lemma init_inv : ps_inv init_pstate.
Proof.
  unfold ps_inv, ps_inv_rules, lookup; simpl.
  split; [split; [|split; [|split; [|split]]]|]; intros; try contradiction; try discriminate; auto.
Qed.

Lemma parse_inv text g :
  parseGrammarFromText text = Some g ->
  exists st, ps_inv st /\ g = mkGrammar (ps_vars st) (ps_terms st) (ps_start st) (ps_rules st).
Proof.
  unfold parseGrammarFromText.
  destruct (process_lines 0 (grammar_lines text) init_pstate) as [st|] eqn:E; [|discriminate].
  intros H; injection H as <-; exists st; split; [|reflexivity].
  exact (process_lines_inv _ _ _ _ init_inv E).
Qed.

Lemma parsed_shape text g A p :
  parseGrammarFromText text = Some g -> In p (get_rules g A) ->
  (exists t, p = [t] /\ t <> []) \/ (exists B C, p = [B; C] /\ B <> [] /\ C <> []).
Proof.
  intros Hg; destruct (parse_inv _ _ Hg) as [st [[[H1 _] _] ->]].
  exact (H1 A p).
Qed.

(** Every production of a grammar compiled by [parseGrammarFromText] is one
    non-empty symbol or two non-empty symbols. *)
Theorem parsed_productions_shape text g A p :
  parseGrammarFromText text = Some g -> In p (get_rules g A) ->
  (exists t, p = [t] /\ t <> []) \/ (exists B C, p = [B; C] /\ B <> [] /\ C <> []).
Proof. apply parsed_shape. Qed.

Lemma parsed_productions_shape_witness :
  parseGrammarFromText scenarioD_text = Some (mkGrammar
    [js "S"; js "NP"; js "VP"; js "Det"; js "N"; js "V"]
    [js "the"; js "a"; js "cat"; js "dog"; js "chased"] (js "S")
    [(js "S", [[js "NP"; js "VP"]]); (js "NP", [[js "Det"; js "N"]]);
     (js "VP", [[js "V"; js "NP"]]); (js "Det", [[js "the"]; [js "a"]]);
     (js "N", [[js "cat"]; [js "dog"]]); (js "V", [[js "chased"]])]) /\
  In [js "NP"; js "VP"] (get_rules (mkGrammar
    [js "S"; js "NP"; js "VP"; js "Det"; js "N"; js "V"]
    [js "the"; js "a"; js "cat"; js "dog"; js "chased"] (js "S")
    [(js "S", [[js "NP"; js "VP"]]); (js "NP", [[js "Det"; js "N"]]);
     (js "VP", [[js "V"; js "NP"]]); (js "Det", [[js "the"]; [js "a"]]);
     (js "N", [[js "cat"]; [js "dog"]]); (js "V", [[js "chased"]])]) (js "S")) /\
  ((exists t, [js "NP"; js "VP"] = [t] /\ t <> []) \/
   (exists B C, [js "NP"; js "VP"] = [B; C] /\ B <> [] /\ C <> [])).
Proof.
  match goal with |- (?e = Some ?G) /\ (In ?p (get_rules _ ?A)) /\ _ =>
    assert (H0 : e = Some G) by (vm_compute; reflexivity);
    assert (H1 : In p (get_rules G A)) by (vm_compute; left; reflexivity);
    exact (conj H0 (conj H1 (parsed_productions_shape _ G A p H0 H1)))
  end.
Defined.

(** In a grammar compiled by [parseGrammarFromText]: every variable with a
    rules entry is listed in [variables]; both symbols of a two-symbol
    production are listed in [variables]; the symbol of a one-symbol
    production is listed in [terminals] or in [variables]; and every listed
    terminal is the symbol of some one-symbol production. *)
Theorem parsed_symbols_declared text g :
  parseGrammarFromText text = Some g ->
  (forall A ps, assoc_get A (rules g) = Some ps -> In A (variables g)) /\
  (forall A B C, In [B; C] (get_rules g A) -> In B (variables g) /\ In C (variables g)) /\
  (forall A t, In [t] (get_rules g A) -> In t (terminals g) \/ In t (variables g)) /\
  (forall t, In t (terminals g) -> exists A, In [t] (get_rules g A)).
Proof.
  intros Hg; destruct (parse_inv _ _ Hg) as [st [[[_ [H2 [H3 [H4 _]]]] Ht] ->]].
  exact (conj H2 (conj H3 (conj H4 Ht))).
Qed.

Lemma parsed_symbols_declared_witness :
  parseGrammarFromText (js "S -> AB | a") = Some (mkGrammar
    [js "S"; js "A"; js "B"] [js "a"] (js "S") [(js "S", [[js "A"; js "B"]; [js "a"]])]) /\
  ((forall A ps, assoc_get A [(js "S", [[js "A"; js "B"]; [js "a"]])] = Some ps ->
      In A [js "S"; js "A"; js "B"]) /\
   (forall A B C, In [B; C] (get_rules (mkGrammar [js "S"; js "A"; js "B"] [js "a"] (js "S")
        [(js "S", [[js "A"; js "B"]; [js "a"]])]) A) -> In B [js "S"; js "A"; js "B"] /\ In C [js "S"; js "A"; js "B"]) /\
   (forall A t, In [t] (get_rules (mkGrammar [js "S"; js "A"; js "B"] [js "a"] (js "S")
        [(js "S", [[js "A"; js "B"]; [js "a"]])]) A) -> In t [js "a"] \/ In t [js "S"; js "A"; js "B"]) /\
   (forall t, In t [js "a"] -> exists A, In [t] (get_rules (mkGrammar [js "S"; js "A"; js "B"] [js "a"] (js "S")
        [(js "S", [[js "A"; js "B"]; [js "a"]])]) A))).
Proof.
  split; [vm_compute; reflexivity|].
  exact (parsed_symbols_declared (js "S -> AB | a") _ ltac:(vm_compute; reflexivity)).
Defined.

(** ** Variables named like [Object.prototype] members *)

(** An alternative from which [process_prod] pushes a production: a quoted
    terminal, or one or two whitespace-separated words. *)
Definition alt_pushes (a : jstr) : bool :=
  match quoted (trim a) with
  | Some _ => true
  | None =>
      let k := List.length (filter_nonempty (split_ws (trim a))) in (k =? 1) || (k =? 2)
  end.

Lemma push_rule_nokey left p st :
  assoc_get left (ps_rules st) = None -> push_rule left p st = None.
Proof. unfold push_rule; intros ->; reflexivity. Qed.

Lemma process_prod_nokey left a st :
  assoc_get left (ps_rules st) = None ->
  (alt_pushes a = true -> process_prod left a st = None) /\
  (forall st', process_prod left a st = Some st' -> st' = st).
Proof.
  intros E; unfold alt_pushes, process_prod.
  destruct (quoted (trim a)); [rewrite push_rule_nokey by exact E; split; [reflexivity|discriminate]|].
  destruct (filter_nonempty (split_ws (trim a))) as [|sym [|C [|]]]; simpl.
  - split; [discriminate|intros st' H; injection H as <-; reflexivity].
  - destruct (is_lower_letter sym); [rewrite push_rule_nokey by exact E; split; [reflexivity|discriminate]|].
    destruct (upper_pair sym) as [[B C]|]; rewrite push_rule_nokey by exact E; split; auto; discriminate.
  - rewrite push_rule_nokey by exact E; split; [reflexivity|discriminate].
  - split; [discriminate|intros st' H; injection H as <-; reflexivity].
Qed.

Lemma process_prods_nokey left alts a st :
  assoc_get left (ps_rules st) = None -> In a alts -> alt_pushes a = true ->
  process_prods left alts st = None.
Proof.
  revert st; induction alts as [|b alts IH]; simpl; intros st E Ha Hp; [contradiction|].
  destruct (process_prod_nokey left b st E) as [H1 H2].
  destruct Ha as [<-|Ha]; [rewrite H1 by exact Hp; reflexivity|].
  destruct (process_prod left b st) as [st1|] eqn:Eb; [|reflexivity].
  rewrite (H2 st1 eq_refl); apply IH; auto.
Qed.

Lemma process_line_inv idx l st st' :
  ps_inv st -> process_line idx l st = Some st' -> ps_inv st'.
Proof.
  intros Hi E; unfold process_line in E.
  destruct (line_splitter l); [eapply add_line_inv; eauto|injection E as <-; exact Hi].
Qed.

Lemma process_lines_none idx lines st l :
  ps_inv st -> In l lines ->
  (forall idx' st', ps_inv st' -> process_line idx' l st' = None) ->
  process_lines idx lines st = None.
Proof.
  revert idx st; induction lines as [|l' lines IH]; simpl; intros idx st Hi Hl Hn; [contradiction|].
  destruct Hl as [<-|Hl]; [rewrite Hn by exact Hi; reflexivity|].
  destruct (process_line idx l' st) as [st1|] eqn:E; [|reflexivity].
  apply IH; eauto using process_line_inv.
Qed.

Lemma process_prod_none_pushes left a st :
  process_prod left a st = None -> alt_pushes a = true.
Proof.
  unfold process_prod, alt_pushes.
  destruct (quoted (trim a)); [reflexivity|].
  destruct (filter_nonempty (split_ws (trim a))) as [|sym [|C [|]]]; simpl;
    solve [reflexivity|discriminate].
Qed.

Lemma push_rule_key left p st ps :
  assoc_get left (ps_rules st) = Some ps ->
  exists st' ps', push_rule left p st = Some st' /\ assoc_get left (ps_rules st') = Some ps'.
Proof.
  intros E; unfold push_rule; rewrite E; eexists; eexists; split; [reflexivity|].
  simpl; rewrite assoc_get_set, jeqb_refl; reflexivity.
Qed.

Lemma process_prod_key left a st ps :
  assoc_get left (ps_rules st) = Some ps ->
  exists st' ps', process_prod left a st = Some st' /\ assoc_get left (ps_rules st') = Some ps'.
Proof.
  intros E; unfold process_prod.
  destruct (quoted (trim a)); [eapply push_rule_key; exact E|].
  destruct (filter_nonempty (split_ws (trim a))) as [|sym [|C [|]]];
    try (exists st, ps; split; [reflexivity|exact E]).
  - destruct (is_lower_letter sym); [eapply push_rule_key; exact E|].
    destruct (upper_pair sym) as [[B C]|]; eapply push_rule_key; exact E.
  - eapply push_rule_key; exact E.
Qed.

Lemma process_prods_none left alts st :
  process_prods left alts st = None ->
  assoc_get left (ps_rules st) = None /\ exists a, In a alts /\ alt_pushes a = true.
Proof.
  revert st; induction alts as [|b alts IH]; simpl; intros st H; [discriminate|].
  destruct (assoc_get left (ps_rules st)) as [ps|] eqn:E.
  - destruct (process_prod_key left b st ps E) as [st' [ps' [Eb E']]].
    rewrite Eb in H; destruct (IH st' H) as [E'' _]; congruence.
  - split; [reflexivity|].
    destruct (process_prod left b st) as [st'|] eqn:Eb.
    + destruct (IH st' H) as [_ [a [Ha Hp]]]; exists a; auto.
    + exists b; split; [left; reflexivity|exact (process_prod_none_pushes _ _ _ Eb)].
Qed.

Lemma ensure_key_none left r :
  assoc_get left (ensure_key left r) = None -> In left proto_names.
Proof.
  unfold ensure_key; destruct (assoc_get left r) eqn:E; [congruence|].
  destruct (existsb (jeqb left) proto_names) eqn:Ep.
  - intros _; apply existsb_exists in Ep as [x [Hx Ex]]; apply jeqb_eq in Ex; subst; exact Hx.
  - rewrite assoc_get_snoc, E, jeqb_refl; discriminate.
Qed.

Lemma process_lines_none_line idx lines st :
  process_lines idx lines st = None ->
  exists l idx' st', In l lines /\ process_line idx' l st' = None.
Proof.
  revert idx st; induction lines as [|l lines IH]; simpl; intros idx st H; [discriminate|].
  destruct (process_line idx l st) as [st'|] eqn:E.
  - destruct (IH _ _ H) as [l' [idx' [st'' [Hl Hn]]]]; exists l', idx', st''; auto.
  - exists l, idx, st; auto.
Qed.

(** [parseGrammarFromText] throws exactly when some line's left-hand side,
    once its whitespace is removed, is the name of an [Object.prototype]
    member (such as [toString] or [constructor]) and one of that line's
    alternatives adds a production: [rules[left]] is then the inherited
    member, not an array, and [rules[left].push] raises a TypeError. No
    other input makes it throw. *)
Theorem proto_variable_throws text :
  parseGrammarFromText text = None <->
  exists line sp a,
    In line (grammar_lines text) /\
    line_splitter line = Some sp /\
    In (remove_ws (trim (firstn sp line))) proto_names /\
    In a (map trim (split_on 124%N (trim (skipn (sp + 2) line)))) /\
    alt_pushes a = true.
Proof.
  split.
  - unfold parseGrammarFromText.
    destruct (process_lines 0 (grammar_lines text) init_pstate) eqn:E; [discriminate|intros _].
    destruct (process_lines_none_line _ _ _ E) as [line [idx [st [Hl Hn]]]].
    unfold process_line in Hn; destruct (line_splitter line) as [sp|] eqn:Hsp; [|discriminate].
    unfold add_line in Hn; apply process_prods_none in Hn as [Hk [a [Ha Hp]]].
    exists line, sp, a; repeat split; auto.
    simpl in Hk; exact (ensure_key_none _ _ Hk).
  - intros [line [sp [a (Hl & Hsp & Hpr & Ha & Hp)]]]; unfold parseGrammarFromText.
    rewrite (process_lines_none 0 _ init_pstate line init_inv Hl); [reflexivity|].
    intros idx st Hi; unfold process_line; rewrite Hsp; unfold add_line.
    set (left := remove_ws (trim (firstn sp line))) in *.
    apply (process_prods_nokey left _ a); [|exact Ha|exact Hp].
    simpl; unfold ensure_key.
    set (st1 := if (idx =? 0) && negb (is_empty left) then with_start st left else st).
    assert (E : assoc_get left (ps_rules st1) = None).
    { unfold st1; destruct (_ && _); destruct Hi as [[_ [_ [_ [_ H5]]]] _]; exact (H5 left Hpr). }
    rewrite E.
    replace (existsb (jeqb left) proto_names) with true; [exact E|].
    symmetry; apply existsb_exists; exists left; split; [exact Hpr|apply jeqb_refl].
Qed.

Lemma proto_variable_throws_witness :
  parseGrammarFromText (js "toString -> a") = None /\
  parseGrammarFromText (js "S -> a") <> None.
Proof.
  assert (H1 : In (js "toString -> a") (grammar_lines (js "toString -> a"))) by (vm_compute; left; reflexivity).
  assert (H2 : line_splitter (js "toString -> a") = Some 9) by (vm_compute; reflexivity).
  assert (H3 : In (remove_ws (trim (firstn 9 (js "toString -> a")))) proto_names)
    by (vm_compute; right; right; right; right; right; right; right; right; left; reflexivity).
  assert (H4 : In (js "a") (map trim (split_on 124%N (trim (skipn (9 + 2) (js "toString -> a"))))))
    by (vm_compute; left; reflexivity).
  assert (H5 : alt_pushes (js "a") = true) by (vm_compute; reflexivity).
  split.
  - apply (proj2 (proto_variable_throws (js "toString -> a"))).
    exists (js "toString -> a"), 9, (js "a"); auto.
  - vm_compute; discriminate.
Defined.

(** ** The Generate handlers, [toD3Tree] and [renderAsciiTree] *)

Lemma accepted_tree g w :
  accepted (cykWithPointers w g) = true ->
  exists t, buildParseTree g w (res_back (cykWithPointers w g)) = Some (Some t) /\
            no_bare t = true /\ leaves t = w.
Proof.
  unfold cykWithPointers.
  destruct (Nat.eqb_spec (List.length w) 0) as [E|E]; simpl; [discriminate|].
  rewrite set_has_In; intros HS.
  assert (Hw : w <> []) by (intros ->; simpl in E; lia).
  assert (Hinv := cyk_fill_back_inv w g _ (back_inv_empty w)).
  assert (Hsnd := cyk_fill_sound g w empty_cstate ltac:(intros ? ? ? [])).
  unfold buildParseTree.
  destruct (Nat.eqb_spec (List.length w) 0) as [E'|E']; [lia|].
  rewrite cell_at_materialize by lia.
  destruct (proj1 Hinv _ _ _ HS) as [r [rs ER]]; rewrite ER.
  destruct (choose_complete g w _ (List.length w) _ 0 (List.length w - 1) Hinv Hsnd HS ltac:(lia))
    as [t [Et [Nt Lt]]].
  rewrite Et; exists t; repeat split; auto.
  rewrite Lt; apply span_full; exact Hw.
Qed.

Lemma generate_spec g tokens :
  exists r, generate g tokens = Some r /\
    ui_accepted r = accepted (cykWithPointers tokens g) /\
    ui_table r = res_table (cykWithPointers tokens g) /\
    (ui_accepted r = true -> exists t, ui_tree r = Some t /\ no_bare t = true /\ leaves t = tokens) /\
    (ui_accepted r = false -> ui_tree r = None).
Proof.
  unfold generate; destruct (accepted (cykWithPointers tokens g)) eqn:Ea.
  - destruct (accepted_tree g tokens Ea) as [t [Et [Nt Lt]]]; rewrite Et.
    eexists; split; [reflexivity|simpl; repeat split; eauto; discriminate].
  - eexists; split; [reflexivity|simpl; repeat split; auto; discriminate].
Qed.

Lemma derives_terminals g A w :
  derives g A w -> forall t, In t w -> exists B, In [t] (get_rules g B).
Proof.
  induction 1 as [A t' Hp|A B C u v Hp Hu IHu Hv IHv]; intros t Ht.
  - destruct Ht as [<-|[]]; eauto.
  - apply in_app_iff in Ht as [Ht|Ht]; auto.
Qed.

(** Parsed grammars never accept a token sequence holding the empty token. *)
Lemma parsed_rejects_empty_token text g w :
  parseGrammarFromText text = Some g -> In [] w -> accepted (cykWithPointers w g) = false.
Proof.
  intros Hg Hw; destruct (accepted (cykWithPointers w g)) eqn:Ea; [|reflexivity].
  apply cyk_accepts_iff in Ea.
  destruct (derives_terminals _ _ _ Ea [] Hw) as [B HB].
  destruct (parsed_shape text g B [[]] Hg HB) as [[t [Et Ht]]|[B' [C [Et _]]]];
    [injection Et as <-; congruence|discriminate].
Qed.

Lemma drop_ws_all s : existsb (fun c => negb (is_ws c)) s = false -> drop_ws s = [].
Proof.
  induction s as [|c s IH]; simpl; [reflexivity|].
  destruct (is_ws c); simpl; [exact IH|discriminate].
Qed.

Lemma trim_all_ws s : existsb (fun c => negb (is_ws c)) s = false -> trim s = [].
Proof. intros H; unfold trim; rewrite (drop_ws_all s H); reflexivity. Qed.

(** When the PGC tab's grammar text compiles, its Generate button stores a
    result whose [accepted] is that of [cykWithPointers] on the sentence's
    tokens. An accepted result carries a parse tree without bare nodes whose
    leaves, and the childless nodes of the D3 tree drawn from it, are the
    whitespace-separated words of the sentence; a rejected result carries
    no tree. *)
Theorem pgc_tree_spells_words text sentence g :
  parseGrammarFromText text = Some g ->
  exists r, pgc_generate text sentence = Some r /\
    ui_accepted r = accepted (cykWithPointers (tokenize_pgc sentence) g) /\
    (ui_accepted r = true ->
       exists t d, ui_tree r = Some t /\ no_bare t = true /\ leaves t = words sentence /\
         toD3Tree (ui_tree r) = Some d /\ d3_leaves d = words sentence) /\
    (ui_accepted r = false -> ui_tree r = None).
Proof.
  intros Hg; unfold pgc_generate; rewrite Hg.
  destruct (generate_spec g (tokenize_pgc sentence)) as [r [Er [Ea [_ [Ht Hf]]]]].
  exists r; split; [exact Er|split; [exact Ea|split; [|exact Hf]]].
  intros Hacc; destruct (Ht Hacc) as [t [Et [Nt Lt]]].
  assert (Hw : tokenize_pgc sentence = words sentence).
  { destruct (existsb (fun c => negb (is_ws c)) sentence) eqn:Ex.
    - apply split_ws_trim_words; exact Ex.
    - exfalso; rewrite Ea in Hacc.
      rewrite (parsed_rejects_empty_token text g) in Hacc; [discriminate|exact Hg|].
      unfold tokenize_pgc; rewrite trim_all_ws by exact Ex; left; reflexivity. }
  rewrite Hw in Lt.
  exists t, (to_d3 t); rewrite Et; repeat split; auto.
  rewrite <- Lt; clear -Nt; induction t as [l|l tok|l a IHa b IHb]; simpl in *; try discriminate; auto.
  apply andb_true_iff in Nt as [Na Nb]; rewrite app_nil_r, IHa, IHb by auto; reflexivity.
Qed.

Lemma to_d3_leaves_aux t : no_bare t = true -> d3_leaves (to_d3 t) = leaves t.
Proof.
  induction t as [l|l tok|l a IHa b IHb]; simpl; intros Nt; try discriminate; auto.
  apply andb_true_iff in Nt as [Na Nb]; rewrite app_nil_r, IHa, IHb by auto; reflexivity.
Qed.

Lemma draw_length_aux t d :
  no_bare t = true -> List.length (draw t d) = 5 * List.length (leaves t) - 2 /\ 1 <= List.length (leaves t).
Proof.
  revert d; induction t as [l|l tok|l a IHa b IHb]; simpl; intros d Nt; try discriminate; [lia|].
  apply andb_true_iff in Nt as [Na Nb].
  destruct (IHa (d + 0) Na) as [Ha Ha1]; destruct (IHb (d + 2) Nb) as [Hb Hb1].
  rewrite !length_app, Ha, Hb; lia.
Qed.

Lemma pgc_tree_spells_words_witness :
  parseGrammarFromText scenarioD_text = Some (mkGrammar
    [js "S"; js "NP"; js "VP"; js "Det"; js "N"; js "V"]
    [js "the"; js "a"; js "cat"; js "dog"; js "chased"] (js "S")
    [(js "S", [[js "NP"; js "VP"]]); (js "NP", [[js "Det"; js "N"]]);
     (js "VP", [[js "V"; js "NP"]]); (js "Det", [[js "the"]; [js "a"]]);
     (js "N", [[js "cat"]; [js "dog"]]); (js "V", [[js "chased"]])]) /\
  exists r, pgc_generate scenarioD_text (js " the cat  chased a dog ") = Some r /\
    ui_accepted r = accepted (cykWithPointers (tokenize_pgc (js " the cat  chased a dog ")) (mkGrammar
    [js "S"; js "NP"; js "VP"; js "Det"; js "N"; js "V"]
    [js "the"; js "a"; js "cat"; js "dog"; js "chased"] (js "S")
    [(js "S", [[js "NP"; js "VP"]]); (js "NP", [[js "Det"; js "N"]]);
     (js "VP", [[js "V"; js "NP"]]); (js "Det", [[js "the"]; [js "a"]]);
     (js "N", [[js "cat"]; [js "dog"]]); (js "V", [[js "chased"]])])) /\
    (ui_accepted r = true ->
       exists t d, ui_tree r = Some t /\ no_bare t = true /\ leaves t = words (js " the cat  chased a dog ") /\
         toD3Tree (ui_tree r) = Some d /\ d3_leaves d = words (js " the cat  chased a dog ")) /\
    (ui_accepted r = false -> ui_tree r = None).
Proof.
  assert (H : parseGrammarFromText scenarioD_text = Some (mkGrammar
    [js "S"; js "NP"; js "VP"; js "Det"; js "N"; js "V"]
    [js "the"; js "a"; js "cat"; js "dog"; js "chased"] (js "S")
    [(js "S", [[js "NP"; js "VP"]]); (js "NP", [[js "Det"; js "N"]]);
     (js "VP", [[js "V"; js "NP"]]); (js "Det", [[js "the"]; [js "a"]]);
     (js "N", [[js "cat"]; [js "dog"]]); (js "V", [[js "chased"]])])) by (vm_compute; reflexivity).
  exact (conj H (pgc_tree_spells_words _ (js " the cat  chased a dog ") _ H)).
Defined.

(** The Simulator tab's Generate button, for a grammar text that compiles,
    stores a result whose [accepted] is that of [cykWithPointers] on the
    word's tokens; an accepted result carries a parse tree without bare
    nodes whose leaves, and the childless nodes of its D3 tree, are the
    tokens; a rejected result carries no tree. *)
Theorem sim_tree_spells_tokens text word g :
  parseGrammarFromText text = Some g ->
  exists r, sim_generate text word = Some r /\
    ui_accepted r = accepted (cykWithPointers (tokenize_sim word) g) /\
    (ui_accepted r = true ->
       exists t d, ui_tree r = Some t /\ no_bare t = true /\ leaves t = tokenize_sim word /\
         toD3Tree (ui_tree r) = Some d /\ d3_leaves d = tokenize_sim word) /\
    (ui_accepted r = false -> ui_tree r = None).
Proof.
  intros Hg; unfold sim_generate; rewrite Hg.
  destruct (generate_spec g (tokenize_sim word)) as [r [Er [Ea [_ [Ht Hf]]]]].
  exists r; split; [exact Er|split; [exact Ea|split; [|exact Hf]]].
  intros Hacc; destruct (Ht Hacc) as [t [Et [Nt Lt]]].
  exists t, (to_d3 t); rewrite Et; repeat split; auto.
  rewrite to_d3_leaves_aux by exact Nt; exact Lt.
Qed.

Lemma sim_tree_spells_tokens_witness :
  parseGrammarFromText (js "S -> AB" ++ [10%N] ++ js "A -> a" ++ [10%N] ++ js "B -> b") =
    Some (mkGrammar [js "S"; js "A"; js "B"] [js "a"; js "b"] (js "S")
            [(js "S", [[js "A"; js "B"]]); (js "A", [[js "a"]]); (js "B", [[js "b"]])]) /\
  exists r, sim_generate (js "S -> AB" ++ [10%N] ++ js "A -> a" ++ [10%N] ++ js "B -> b") (js "ab") = Some r /\
    ui_accepted r = accepted (cykWithPointers (tokenize_sim (js "ab"))
       (mkGrammar [js "S"; js "A"; js "B"] [js "a"; js "b"] (js "S")
            [(js "S", [[js "A"; js "B"]]); (js "A", [[js "a"]]); (js "B", [[js "b"]])])) /\
    (ui_accepted r = true ->
       exists t d, ui_tree r = Some t /\ no_bare t = true /\ leaves t = tokenize_sim (js "ab") /\
         toD3Tree (ui_tree r) = Some d /\ d3_leaves d = tokenize_sim (js "ab")) /\
    (ui_accepted r = false -> ui_tree r = None).
Proof.
  assert (H : parseGrammarFromText (js "S -> AB" ++ [10%N] ++ js "A -> a" ++ [10%N] ++ js "B -> b") =
    Some (mkGrammar [js "S"; js "A"; js "B"] [js "a"; js "b"] (js "S")
            [(js "S", [[js "A"; js "B"]]); (js "A", [[js "a"]]); (js "B", [[js "b"]])]))
    by (vm_compute; reflexivity).
  exact (conj H (sim_tree_spells_tokens _ (js "ab") _ H)).
Defined.

(** A sentence or word made only of whitespace (or empty) is rejected by
    both Generate buttons, with no tree, for every grammar text that
    compiles: its tokens are [[""]] or [[]], and no compiled production has
    an empty symbol. *)
Theorem blank_input_rejected text s g :
  parseGrammarFromText text = Some g ->
  existsb (fun c => negb (is_ws c)) s = false ->
  (exists r, pgc_generate text s = Some r /\ ui_accepted r = false /\ ui_tree r = None) /\
  (exists r, sim_generate text s = Some r /\ ui_accepted r = false /\ ui_tree r = None).
Proof.
  intros Hg Hs.
  assert (Hrej : forall tokens, (In [] tokens \/ tokens = []) ->
            exists r, generate g tokens = Some r /\ ui_accepted r = false /\ ui_tree r = None).
  { intros tokens Ht; destruct (generate_spec g tokens) as [r [Er [Ea [_ [_ Hf]]]]].
    assert (Hf' : accepted (cykWithPointers tokens g) = false).
    { destruct Ht as [Ht| ->]; [exact (parsed_rejects_empty_token text g tokens Hg Ht)|reflexivity]. }
    exists r; rewrite Ea in Hf |- *; repeat split; auto. }
  unfold pgc_generate, sim_generate; rewrite Hg; split; apply Hrej.
  - left; unfold tokenize_pgc; rewrite trim_all_ws by exact Hs; left; reflexivity.
  - unfold tokenize_sim; rewrite trim_all_ws by exact Hs.
    destruct (includes_space s); [left; left; reflexivity|right; reflexivity].
Qed.

Lemma blank_input_rejected_witness :
  parseGrammarFromText scenarioD_text = Some (mkGrammar
    [js "S"; js "NP"; js "VP"; js "Det"; js "N"; js "V"]
    [js "the"; js "a"; js "cat"; js "dog"; js "chased"] (js "S")
    [(js "S", [[js "NP"; js "VP"]]); (js "NP", [[js "Det"; js "N"]]);
     (js "VP", [[js "V"; js "NP"]]); (js "Det", [[js "the"]; [js "a"]]);
     (js "N", [[js "cat"]; [js "dog"]]); (js "V", [[js "chased"]])]) /\
  existsb (fun c => negb (is_ws c)) (js "  ") = false /\
  (exists r, pgc_generate scenarioD_text (js "  ") = Some r /\ ui_accepted r = false /\ ui_tree r = None) /\
  (exists r, sim_generate scenarioD_text (js "  ") = Some r /\ ui_accepted r = false /\ ui_tree r = None).
Proof.
  assert (H : parseGrammarFromText scenarioD_text = Some (mkGrammar
    [js "S"; js "NP"; js "VP"; js "Det"; js "N"; js "V"]
    [js "the"; js "a"; js "cat"; js "dog"; js "chased"] (js "S")
    [(js "S", [[js "NP"; js "VP"]]); (js "NP", [[js "Det"; js "N"]]);
     (js "VP", [[js "V"; js "NP"]]); (js "Det", [[js "the"]; [js "a"]]);
     (js "N", [[js "cat"]; [js "dog"]]); (js "V", [[js "chased"]])])) by (vm_compute; reflexivity).
  assert (Hs : existsb (fun c => negb (is_ws c)) (js "  ") = false) by reflexivity.
  exact (conj H (conj Hs (blank_input_rejected _ _ _ H Hs))).
Defined.

(** [toD3Tree] keeps the yield: for a tree without bare nodes, the names of
    the childless nodes of the D3 tree, left to right, are the tree's
    leaves (each terminal token becomes the only child of its variable). *)
Theorem d3_tree_leaves t :
  no_bare t = true -> d3_leaves (to_d3 t) = leaves t.
Proof. exact (to_d3_leaves_aux t). Qed.

Lemma d3_tree_leaves_witness :
  no_bare (Node (js "S") (Leaf (js "A") (js "a")) (Leaf (js "B") (js "b"))) = true /\
  d3_leaves (to_d3 (Node (js "S") (Leaf (js "A") (js "a")) (Leaf (js "B") (js "b")))) = [js "a"; js "b"].
Proof.
  split; [reflexivity|].
  exact (d3_tree_leaves (Node (js "S") (Leaf (js "A") (js "a")) (Leaf (js "B") (js "b"))) eq_refl).
Defined.

(** [renderAsciiTree] draws a tree without bare nodes and with [n] leaves
    in [5n - 2] lines, joined by newlines: three per leaf (label, bar,
    token) and two per inner node (label and ["/ \"]). *)
Theorem ascii_tree_line_count t :
  no_bare t = true ->
  renderAsciiTree (Some t) = join [10%N] (draw t 0) /\
  List.length (draw t 0) = 5 * List.length (leaves t) - 2.
Proof. intros Nt; split; [reflexivity|exact (proj1 (draw_length_aux t 0 Nt))]. Qed.

Lemma ascii_tree_line_count_witness :
  no_bare (Node (js "S") (Leaf (js "A") (js "a")) (Leaf (js "B") (js "b"))) = true /\
  renderAsciiTree (Some (Node (js "S") (Leaf (js "A") (js "a")) (Leaf (js "B") (js "b")))) =
    join [10%N] (draw (Node (js "S") (Leaf (js "A") (js "a")) (Leaf (js "B") (js "b"))) 0) /\
  List.length (draw (Node (js "S") (Leaf (js "A") (js "a")) (Leaf (js "B") (js "b"))) 0) = 8.
Proof.
  split; [reflexivity|].
  exact (ascii_tree_line_count (Node (js "S") (Leaf (js "A") (js "a")) (Leaf (js "B") (js "b"))) eq_refl).
Defined.

(** ** [parseGrammar] and [handleCheckGrammar] *)

Lemma split_str_none sep s i cur :
  index_of_from sep s i = None -> split_str_aux sep 0 cur s = [rev cur ++ s].
Proof.
  revert i cur; induction s as [|c s IH]; intros i cur H; simpl.
  - rewrite app_nil_r; reflexivity.
  - simpl in H; destruct (prefixb sep (c :: s)); [discriminate|].
    rewrite (IH (S i) (c :: cur) H); simpl; rewrite <- app_assoc; reflexivity.
Qed.

Lemma split_str_aux_cons sep cur c r :
  split_str_aux sep 0 cur (c :: r) =
  if prefixb sep (c :: r) then rev cur :: split_str_aux sep (List.length sep - 1) [] r
  else split_str_aux sep 0 (c :: cur) r.
Proof. reflexivity. Qed.

Lemma prefixb_arrow_ext c l x :
  prefixb arrow_ascii (c :: l) = false -> prefixb arrow_ascii (c :: l ++ arrow_ascii ++ x) = false.
Proof.
  change arrow_ascii with [45%N; 62%N]; intros H.
  destruct l as [|c2 l]; cbn [prefixb app] in *;
    [apply Bool.andb_false_iff; right; reflexivity|exact H].
Qed.

Lemma split_str_arrow l r cur i :
  index_of_from arrow_ascii l i = None ->
  split_str_aux arrow_ascii 0 cur (l ++ arrow_ascii ++ r) =
  (rev cur ++ l) :: split_str_aux arrow_ascii 0 [] r.
Proof.
  revert cur i; induction l as [|c l IH]; intros cur i Hl.
  - simpl; rewrite app_nil_r; reflexivity.
  - change (index_of_from arrow_ascii (c :: l) i) with
      (if prefixb arrow_ascii (c :: l) then Some i else index_of_from arrow_ascii l (S i)) in Hl.
    destruct (prefixb arrow_ascii (c :: l)) eqn:Hp; [discriminate|].
    rewrite <- app_comm_cons, split_str_aux_cons, (prefixb_arrow_ext _ _ _ Hp), (IH (c :: cur) (S i) Hl).
    simpl; rewrite <- app_assoc; reflexivity.
Qed.

(** A rule line [left->right->rest] of the custom-grammar form, where
    [left] and [right] hold no ["->"], is read as [left->right]:
    [line.split("->")] is destructured into its first two pieces, and
    whatever follows the second arrow is dropped. *)
Theorem rule_line_extra_arrow parsedRules left right rest :
  index_of arrow_ascii left = None -> index_of arrow_ascii right = None ->
  parse_rule_line parsedRules (left ++ arrow_ascii ++ right ++ arrow_ascii ++ rest) =
  Some (obj_assign (trim left) (map char_prod (split_on 124%N right)) parsedRules) /\
  parse_rule_line parsedRules (left ++ arrow_ascii ++ right) =
  Some (obj_assign (trim left) (map char_prod (split_on 124%N right)) parsedRules).
Proof.
  intros Hl Hr; unfold parse_rule_line, split_str; split.
  - rewrite (split_str_arrow _ _ _ 0 Hl), (split_str_arrow _ _ _ 0 Hr); reflexivity.
  - rewrite (split_str_arrow _ _ _ 0 Hl), (split_str_none _ _ 0 [] Hr); reflexivity.
Qed.

Lemma rule_line_extra_arrow_witness :
  index_of arrow_ascii (js "S") = None /\ index_of arrow_ascii (js "a>b") = None /\
  (parse_rule_line [] (js "S" ++ arrow_ascii ++ js "a>b" ++ arrow_ascii ++ js "c") =
   Some (obj_assign (trim (js "S")) (map char_prod (split_on 124%N (js "a>b"))) []) /\
   parse_rule_line [] (js "S" ++ arrow_ascii ++ js "a>b") =
   Some (obj_assign (trim (js "S")) (map char_prod (split_on 124%N (js "a>b"))) [])).
Proof.
  assert (H1 : index_of arrow_ascii (js "S") = None) by (vm_compute; reflexivity).
  assert (H2 : index_of arrow_ascii (js "a>b") = None) by (vm_compute; reflexivity).
  exact (conj H1 (conj H2 (rule_line_extra_arrow [] (js "S") (js "a>b") (js "c") H1 H2))).
Defined.

Lemma parse_rule_lines_app pr L1 L2 :
  parse_rule_lines pr (L1 ++ L2) =
  match parse_rule_lines pr L1 with Some pr1 => parse_rule_lines pr1 L2 | None => None end.
Proof.
  revert pr; induction L1 as [|l L1 IH]; simpl; intros pr; [reflexivity|].
  destruct (parse_rule_line pr l); [apply IH|reflexivity].
Qed.

(** [parseGrammar] throws when a non-blank line of the rules text has no
    ["->"]: [right] is then [undefined] and [right.split("|")] raises a
    TypeError. *)
Theorem rule_line_without_arrow_throws gi l :
  In l (rule_lines (gi_rules gi)) -> index_of arrow_ascii l = None -> parseGrammar gi = None.
Proof.
  intros Hin Hl; unfold parseGrammar.
  apply in_split in Hin as [L1 [L2 E]]; rewrite E, parse_rule_lines_app.
  destruct (parse_rule_lines [] L1) as [pr|]; [|reflexivity]; simpl.
  unfold parse_rule_line, split_str; rewrite (split_str_none _ _ 0 [] Hl); reflexivity.
Qed.

Lemma rule_line_without_arrow_throws_witness :
  In (js "S => a") (rule_lines (gi_rules (mkGInput (js "S") (js "a") (js "S") (js "S => a")))) /\
  index_of arrow_ascii (js "S => a") = None /\
  parseGrammar (mkGInput (js "S") (js "a") (js "S") (js "S => a")) = None.
Proof.
  assert (H1 : In (js "S => a") (rule_lines (gi_rules (mkGInput (js "S") (js "a") (js "S") (js "S => a")))))
    by (vm_compute; left; reflexivity).
  assert (H2 : index_of arrow_ascii (js "S => a") = None) by (vm_compute; reflexivity).
  exact (conj H1 (conj H2 (rule_line_without_arrow_throws _ _ H1 H2))).
Defined.

(** When several lines of the rules text define the same variable [A]
    (other than [__proto__]), [parsedRules[A]] holds the productions of the
    last of them: each line overwrites the earlier ones. Precisely: if the
    non-blank line [l], split at ["->"] into [left], [right], ..., has
    [left.trim()] = [A], and no later line with an arrow has a left-hand side
    trimming to [A], then whenever [parseGrammar] returns, [rules[A]] is the
    list of productions of [right]. *)
Theorem rule_line_last_wins gi L1 l L2 left right rest g :
  rule_lines (gi_rules gi) = L1 ++ l :: L2 ->
  split_str arrow_ascii l = left :: right :: rest ->
  trim left <> js "__proto__" ->
  (forall l' left' right' rest', In l' L2 ->
     split_str arrow_ascii l' = left' :: right' :: rest' -> trim left' <> trim left) ->
  parseGrammar gi = Some g ->
  assoc_get (trim left) (rules g) = Some (map char_prod (split_on 124%N right)).
Proof.
  intros E Hl Hp HL2; unfold parseGrammar; rewrite E, parse_rule_lines_app.
  destruct (parse_rule_lines [] L1) as [pr|]; [|discriminate]; simpl.
  unfold parse_rule_line at 1; rewrite Hl.
  set (v := map char_prod (split_on 124%N right)).
  assert (Hget : assoc_get (trim left) (obj_assign (trim left) v pr) = Some v).
  { unfold obj_assign; destruct (jeqb (trim left) (js "__proto__")) eqn:Ep.
    - apply jeqb_eq in Ep; contradiction.
    - rewrite assoc_get_set, jeqb_refl; reflexivity. }
  clear E; revert HL2 Hget; generalize (obj_assign (trim left) v pr) as pr1.
  induction L2 as [|l' L2 IH]; intros pr1 HL2 Hget; simpl.
  - intros H; injection H as <-; exact Hget.
  - unfold parse_rule_line at 1.
    destruct (split_str arrow_ascii l') as [|left' [|right' rest']] eqn:El'; [discriminate|discriminate|].
    apply IH; [intros l0 a0 b0 r0 Hi Hs; exact (HL2 l0 a0 b0 r0 (or_intror Hi) Hs)|].
    assert (Hne : trim left' <> trim left) by (eapply HL2; [left; reflexivity|exact El']).
    unfold obj_assign; destruct (jeqb (trim left') (js "__proto__")); [exact Hget|].
    rewrite assoc_get_set; destruct (jeqb (trim left) (trim left')) eqn:Eq; [|exact Hget].
    apply jeqb_eq in Eq; congruence.
Qed.

Lemma rule_line_last_wins_witness :
  rule_lines (gi_rules (mkGInput (js "A") (js "a,b") (js "A") (js "A->a" ++ [10%N] ++ js "A->b"))) = [js "A->a"] ++ js "A->b" :: [] /\
  parseGrammar (mkGInput (js "A") (js "a,b") (js "A") (js "A->a" ++ [10%N] ++ js "A->b")) =
    Some (mkGrammar [js "A"] [js "a"; js "b"] (js "A") [(js "A", [[js "b"]])]) /\
  assoc_get (trim (js "A")) [(js "A", [[js "b"]])] =
    Some (map char_prod (split_on 124%N (js "b"))).
Proof.
  assert (E : rule_lines (gi_rules (mkGInput (js "A") (js "a,b") (js "A") (js "A->a" ++ [10%N] ++ js "A->b"))) = [js "A->a"] ++ js "A->b" :: [])
    by (vm_compute; reflexivity).
  assert (Hl : split_str arrow_ascii (js "A->b") = js "A" :: js "b" :: []) by (vm_compute; reflexivity).
  assert (Hp : trim (js "A") <> js "__proto__") by (vm_compute; discriminate).
  assert (HL : forall l' left' right' rest', In l' [] ->
                 split_str arrow_ascii l' = left' :: right' :: rest' ->
                 trim left' <> trim (js "A")) by (intros ? ? ? ? []).
  assert (Hg : parseGrammar (mkGInput (js "A") (js "a,b") (js "A") (js "A->a" ++ [10%N] ++ js "A->b")) =
    Some (mkGrammar [js "A"] [js "a"; js "b"] (js "A") [(js "A", [[js "b"]])])) by (vm_compute; reflexivity).
  exact (conj E (conj Hg
    (rule_line_last_wins _ [js "A->a"] (js "A->b") [] (js "A") (js "b") [] _ E Hl Hp HL Hg))).
Defined.

Lemma trim_single c : trim [c] = if is_ws c then [] else [c].
Proof. unfold trim; simpl; destruct (is_ws c) eqn:E; simpl; rewrite ?E; reflexivity. Qed.

Lemma char_prod_symbols prod x : In x (char_prod prod) -> exists c, x = [c] /\ is_ws c = false.
Proof.
  unfold char_prod, split_chars; intros H; apply filter_In in H as [H1 H2].
  apply in_map_iff in H1 as [c [<- _]]; exists c; split; [reflexivity|].
  rewrite trim_single in H2; destruct (is_ws c); [discriminate|reflexivity].
Qed.

Lemma parse_rule_lines_chars L pr pr' :
  (forall A ps p x, assoc_get A pr = Some ps -> In p ps -> In x p -> exists c, x = [c] /\ is_ws c = false) ->
  parse_rule_lines pr L = Some pr' ->
  forall A ps p x, assoc_get A pr' = Some ps -> In p ps -> In x p -> exists c, x = [c] /\ is_ws c = false.
Proof.
  revert pr; induction L as [|l L IH]; simpl; intros pr Hpr E.
  - injection E as <-; exact Hpr.
  - unfold parse_rule_line in E.
    destruct (split_str arrow_ascii l) as [|left_ [|right_ rest]]; [discriminate|discriminate|].
    refine (IH _ _ E); intros A ps p x HA Hp Hx.
    unfold obj_assign in HA; destruct (jeqb (trim left_) (js "__proto__")); [eauto|].
    rewrite assoc_get_set in HA; destruct (jeqb A (trim left_)); [|eauto].
    injection HA as <-; apply in_map_iff in Hp as [prod [<- _]].
    exact (char_prod_symbols prod x Hx).
Qed.

Lemma parseGrammar_chars gi g A ps p x :
  parseGrammar gi = Some g -> assoc_get A (rules g) = Some ps -> In p ps -> In x p ->
  exists c, x = [c] /\ is_ws c = false.
Proof.
  unfold parseGrammar; destruct (parse_rule_lines [] _) as [pr|] eqn:E; [|discriminate].
  intros H; injection H as <-; simpl; revert A ps p x.
  refine (parse_rule_lines_chars _ [] _ _ E); intros ? ? ? ? H; discriminate H.
Qed.

(** Every symbol of every production built by [parseGrammar] is a single
    code unit that is not whitespace: each production is
    [prod.trim().split("").filter((c) => c.trim())]. *)
Theorem custom_productions_single_chars gi g A ps p x :
  parseGrammar gi = Some g -> assoc_get A (rules g) = Some ps -> In p ps -> In x p ->
  exists c, x = [c] /\ is_ws c = false.
Proof. apply parseGrammar_chars. Qed.

Lemma custom_productions_single_chars_witness :
  parseGrammar (mkGInput (js "S,A,B") (js "a,b") (js "S") (js "S -> A B | BA")) =
    Some (mkGrammar [js "S"; js "A"; js "B"] [js "a"; js "b"] (js "S")
            [(js "S", [[js "A"; js "B"]; [js "B"; js "A"]])]) /\
  exists c, js "B" = [c] /\ is_ws c = false.
Proof.
  assert (Hg : parseGrammar (mkGInput (js "S,A,B") (js "a,b") (js "S") (js "S -> A B | BA")) =
    Some (mkGrammar [js "S"; js "A"; js "B"] [js "a"; js "b"] (js "S")
            [(js "S", [[js "A"; js "B"]; [js "B"; js "A"]])])) by (vm_compute; reflexivity).
  split; [exact Hg|].
  apply (custom_productions_single_chars _ _ (js "S") [[js "A"; js "B"]; [js "B"; js "A"]]
           [js "A"; js "B"] (js "B") Hg); [vm_compute; reflexivity|left; reflexivity|right; left; reflexivity].
Defined.

Lemma t_accepted_eq w g : t_accepted (cykAlgorithm w g) = accepted (cykWithPointers w g).
Proof.
  unfold cykAlgorithm, cykWithPointers.
  destruct (List.length w =? 0); simpl; [reflexivity|].
  pose proof (fill_same_table w g empty_cstate empty_tstate eq_refl) as H.
  unfold same_table in H; rewrite H; reflexivity.
Qed.

(** With a custom grammar, [handleCheckGrammar(true)] never accepts an input
    string holding a whitespace character: every terminal of a grammar read
    by [parseGrammar] is a non-whitespace character, and [cykAlgorithm]
    compares the characters of the input with those terminals. *)
Theorem custom_grammar_rejects_whitespace gi input r c :
  handleCheckGrammar true gi input = Some r -> In c input -> is_ws c = true ->
  t_accepted r = false.
Proof.
  unfold handleCheckGrammar; destruct (parseGrammar gi) as [g|] eqn:Hg; [|discriminate].
  intros H Hc Hw; injection H as <-; rewrite t_accepted_eq.
  destruct (accepted _) eqn:Ea; [|reflexivity].
  apply cyk_accepts_iff in Ea.
  assert (Hin : In [c] (split_chars input)) by exact (in_map (fun c0 => [c0]) input c Hc).
  destruct (derives_terminals _ _ _ Ea _ Hin) as [B HB].
  unfold get_rules in HB; destruct (assoc_get B (rules g)) as [ps|] eqn:EB; [|destruct HB].
  destruct (parseGrammar_chars gi g B ps [[c]] [c] Hg EB HB (or_introl eq_refl)) as [c' [Ec Hc']].
  injection Ec as <-; congruence.
Qed.

Lemma custom_grammar_rejects_whitespace_witness :
  handleCheckGrammar true (mkGInput (js "S,A,B") (js "a,b") (js "S") (js "S->AB|BA
A->a
B->b")) (js "a b") =
    Some (cykAlgorithm (split_chars (js "a b"))
      (mkGrammar [js "S"; js "A"; js "B"] [js "a"; js "b"] (js "S")
        [(js "S", [[js "A"; js "B"]; [js "B"; js "A"]]); (js "A", [[js "a"]]); (js "B", [[js "b"]])])) /\
  t_accepted (cykAlgorithm (split_chars (js "a b"))
      (mkGrammar [js "S"; js "A"; js "B"] [js "a"; js "b"] (js "S")
        [(js "S", [[js "A"; js "B"]; [js "B"; js "A"]]); (js "A", [[js "a"]]); (js "B", [[js "b"]])])) = false.
Proof.
  assert (H : handleCheckGrammar true (mkGInput (js "S,A,B") (js "a,b") (js "S") (js "S->AB|BA
A->a
B->b")) (js "a b") =
    Some (cykAlgorithm (split_chars (js "a b"))
      (mkGrammar [js "S"; js "A"; js "B"] [js "a"; js "b"] (js "S")
        [(js "S", [[js "A"; js "B"]; [js "B"; js "A"]]); (js "A", [[js "a"]]); (js "B", [[js "b"]])])))
    by (vm_compute; reflexivity).
  split; [exact H|].
  apply (custom_grammar_rejects_whitespace _ _ _ 32%N H); [right; left; reflexivity|reflexivity].
Defined.

Lemma example_rules X p :
  In p (get_rules exampleGrammar X) ->
  (X = js "S" /\ (p = [js "A"; js "B"] \/ p = [js "B"; js "A"])) \/
  (X = js "A" /\ p = [js "a"]) \/ (X = js "B" /\ p = [js "b"]).
Proof.
  unfold get_rules; cbn [exampleGrammar rules assoc_get].
  destruct (jeqb X (js "S")) eqn:E1; [apply jeqb_eq in E1; subst; intros [H|[H|[]]]; auto|].
  destruct (jeqb X (js "A")) eqn:E2; [apply jeqb_eq in E2; subst; intros [H|[]]; auto|].
  destruct (jeqb X (js "B")) eqn:E3; [apply jeqb_eq in E3; subst; intros [H|[]]; auto|intros []].
Qed.

Lemma example_derives X w :
  derives exampleGrammar X w ->
  (X = js "A" /\ w = [js "a"]) \/ (X = js "B" /\ w = [js "b"]) \/
  (X = js "S" /\ (w = [js "a"; js "b"] \/ w = [js "b"; js "a"])).
Proof.
  induction 1 as [X t Hp|X B C u v Hp Hu IHu Hv IHv];
    apply example_rules in Hp as [[-> [E|E]]|[[-> E]|[-> E]]]; try discriminate E.
  - injection E as ->; auto.
  - injection E as ->; auto.
  - injection E as -> ->; right; right; split; [reflexivity|left].
    destruct IHu as [[_ ->]|[[E _]|[E _]]]; [|vm_compute in E; discriminate|vm_compute in E; discriminate].
    destruct IHv as [[E _]|[[_ ->]|[E _]]]; [vm_compute in E; discriminate|reflexivity|vm_compute in E; discriminate].
  - injection E as -> ->; right; right; split; [reflexivity|right].
    destruct IHu as [[E _]|[[_ ->]|[E _]]]; [vm_compute in E; discriminate| |vm_compute in E; discriminate].
    destruct IHv as [[_ ->]|[[E _]|[E _]]]; [reflexivity|vm_compute in E; discriminate|vm_compute in E; discriminate].
Qed.

(** With the predefined grammar, [handleCheckGrammar(false)] always returns
    a result, and it accepts exactly the two input strings ["ab"] and
    ["ba"]. *)
Theorem example_grammar_language gi input :
  exists r, handleCheckGrammar false gi input = Some r /\
    (t_accepted r = true <-> input = js "ab" \/ input = js "ba").
Proof.
  eexists; split; [reflexivity|].
  rewrite t_accepted_eq, cyk_accepts_iff; cbn [startSymbol exampleGrammar].
  split.
  - intros H; apply example_derives in H as [[E _]|[[E _]|[_ [Ew|Ew]]]];
      [vm_compute in E; discriminate|vm_compute in E; discriminate| |];
      destruct input as [|c1 [|c2 [|c3 r]]]; try discriminate Ew;
      injection Ew as -> ->; [left|right]; reflexivity.
  - assert (Ha : derives exampleGrammar (js "A") [js "a"]) by (apply der_term; left; reflexivity).
    assert (Hb : derives exampleGrammar (js "B") [js "b"]) by (apply der_term; left; reflexivity).
    intros [-> | ->].
    + apply (der_bin _ _ (js "A") (js "B") [js "a"] [js "b"]); [left; reflexivity|exact Ha|exact Hb].
    + apply (der_bin _ _ (js "B") (js "A") [js "b"] [js "a"]); [right; left; reflexivity|exact Hb|exact Ha].
Qed.

(** ** The steps log of [cykAlgorithm] *)

Lemma step_ok_ext w g t1 t2 m :
  (forall a b x, a < List.length w -> b < List.length w -> In x (t1 a b) -> In x (t2 a b)) ->
  step_ok w g t1 m -> step_ok w g t2 m.
Proof.
  intros H [[i [A (E & Hi & Hp & HA)]]|[i [j [k [A [B [C (E & Hk & Hj & Hp & HB & HC & HA)]]]]]]].
  - left; exists i, A; repeat split; auto.
  - right; exists i, j, k, A, B, C; repeat split; try assumption; try lia; apply H; try assumption; lia.
Qed.

Lemma record_step_cell i j A msg s a b x :
  In x (ttbl (record_step i j A msg s) a b) <-> (a = i /\ b = j /\ x = A) \/ In x (ttbl s a b).
Proof.
  simpl; unfold upd.
  destruct (Nat.eqb_spec a i) as [->|Ha]; destruct (Nat.eqb_spec b j) as [->|Hb]; simpl;
    rewrite ?set_add_In; intuition congruence.
Qed.

Lemma record_step_inv w g i j A msg s :
  trace_inv w g s ->
  step_ok w g (ttbl (record_step i j A msg s)) msg ->
  (i = j /\ msg = diag_msg i (nth i w []) A \/ exists k B C, msg = bin_msg i j k A B C) ->
  trace_inv w g (record_step i j A msg s).
Proof.
  intros [H1 H2] Hm Hf; split.
  - intros m Hin; simpl in Hin; apply in_app_iff in Hin as [Hin|[<-|[]]]; [|exact Hm].
    apply (step_ok_ext w g (ttbl s)); [intros a b x _ _ Hx; apply record_step_cell; auto|auto].
  - intros a b x Hx; apply record_step_cell in Hx as [(-> & -> & ->)|Hx].
    + exists msg; simpl; rewrite in_app_iff; split; [right; left; reflexivity|exact Hf].
    + destruct (H2 a b x Hx) as [m [Hin Hm']]; exists m; simpl; rewrite in_app_iff; auto.
Qed.

Lemma tcyk_fill_trace_inv w g s : trace_inv w g s -> trace_inv w g (tcyk_fill w g s).
Proof.
  intros H; unfold tcyk_fill, tupper_step.
  apply fold_left_ind_in; [intros t len Hlen H1|].
  - apply in_seq in Hlen.
    apply fold_left_ind_in; [intros u i Hi H2|exact H1].
    apply in_seq in Hi.
    unfold tcell_step.
    apply fold_left_ind_in; [intros v k Hk H3|exact H2].
    apply in_seq in Hk.
    apply fold_left_ind_in; [intros x A _ H4|exact H3].
    apply fold_left_ind_in; [intros y p Hp H5|exact H4].
    destruct p as [|B [|C [|]]]; simpl; auto.
    destruct (set_has (ttbl y i k) B && set_has (ttbl y (k + 1) (i + len - 1)) C) eqn:Eg; [|exact H5].
    apply andb_true_iff in Eg as [EB EC]; apply set_has_In in EB, EC.
    apply record_step_inv; [exact H5| |right; eauto].
    right; exists i, (i + len - 1), k, A, B, C; repeat split; auto; try lia;
      apply record_step_cell; auto.
  - apply fold_left_ind_in; [intros u i Hi H2|exact H].
    apply in_seq in Hi.
    unfold tdiag_step.
    apply fold_left_ind_in; [intros v A _ H3|exact H2].
    apply fold_left_ind_in; [intros x p Hp H4|exact H3].
    destruct p as [|p0 [|]]; simpl; auto.
    destruct (jeqb p0 (nth i w [])) eqn:Ep; [|exact H4].
    apply jeqb_eq in Ep; subst p0.
    apply record_step_inv; [exact H4| |left; auto].
    left; exists i, A; repeat split; auto; try lia; apply record_step_cell; auto.
Qed.

Lemma cykAlgorithm_trace_inv w g :
  w <> [] ->
  trace_inv w g (tcyk_fill w g empty_tstate) /\
  cykAlgorithm w g = mkTrace (set_has (ttbl (tcyk_fill w g empty_tstate) 0 (List.length w - 1)) (startSymbol g))
    (materialize (List.length w) (ttbl (tcyk_fill w g empty_tstate))) (steps (tcyk_fill w g empty_tstate)).
Proof.
  intros Hw; split.
  - apply tcyk_fill_trace_inv; split; [intros m []|intros a b x []].
  - unfold cykAlgorithm; destruct (Nat.eqb_spec (List.length w) 0) as [E|_]; [|reflexivity].
    destruct w; [contradiction|discriminate].
Qed.

(** Every message in [steps] of [cykAlgorithm] reports a real table entry:
    a diagonal message [Cell[i][i]: 'c' can be derived from A] has
    [c = word[i]], a production [[c]] of [A] and [A] in [table[i][i]]; a
    binary message [Cell[i][j]: A → BC (from [i][k] and [k+1][j])] has
    [i <= k < j < n], a production [[B; C]] of [A], [B] in [table[i][k]],
    [C] in [table[k+1][j]] and [A] in [table[i][j]]. *)
Theorem trace_steps_justified g w m :
  In m (t_steps (cykAlgorithm w g)) ->
  step_ok w g (fun a b => nth b (nth a (t_table (cykAlgorithm w g)) []) []) m.
Proof.
  destruct w as [|c w']; [intros []|].
  destruct (cykAlgorithm_trace_inv (c :: w') g ltac:(discriminate)) as [[H1 _] ->]; simpl t_steps; simpl t_table.
  intros Hm; refine (step_ok_ext _ g _ _ m _ (H1 m Hm)).
  intros a b x Ha Hb Hx; rewrite nth_materialize by assumption; exact Hx.
Qed.

Lemma trace_steps_justified_witness :
  In (diag_msg 1 (js "b") (js "B")) (t_steps (cykAlgorithm (split_chars (js "ab")) exampleGrammar)) /\
  step_ok (split_chars (js "ab")) exampleGrammar
    (fun a b => nth b (nth a (t_table (cykAlgorithm (split_chars (js "ab")) exampleGrammar)) []) [])
    (diag_msg 1 (js "b") (js "B")).
Proof.
  assert (H : In (diag_msg 1 (js "b") (js "B")) (t_steps (cykAlgorithm (split_chars (js "ab")) exampleGrammar)))
    by (vm_compute; right; left; reflexivity).
  exact (conj H (trace_steps_justified _ _ _ H)).
Defined.

(** Conversely, every variable in a cell of the table of [cykAlgorithm] was
    announced by a message in [steps]: a diagonal message for a cell
    [[i][i]] or a binary message naming the same cell and variable. *)
Lemma materialize_row_length {X} n (f : nat -> nat -> X) i :
  List.length (nth i (materialize n f) []) = if i <? n then n else 0.
Proof.
  destruct (Nat.ltb_spec i n).
  - assert (Hin : In (nth i (materialize n f) []) (materialize n f))
      by (apply nth_In; unfold materialize; rewrite length_map, length_seq; exact H).
    revert Hin; generalize (nth i (materialize n f) []); intros row Hin.
    unfold materialize in Hin; apply in_map_iff in Hin as [i' [<- _]].
    rewrite length_map, length_seq; reflexivity.
  - rewrite nth_overflow; [reflexivity|unfold materialize; rewrite length_map, length_seq; exact H].
Qed.

(** Conversely, every variable in a cell of the table of [cykAlgorithm] was
    announced by a message in [steps]: a diagonal message for the same cell
    [[i][i]] and variable, or a binary message naming the same cell and
    variable. *)
Theorem table_entries_announced g w i j A :
  In A (nth j (nth i (t_table (cykAlgorithm w g)) []) []) ->
  exists m, In m (t_steps (cykAlgorithm w g)) /\
    ((i = j /\ m = diag_msg i (nth i w []) A) \/ (exists k B C, m = bin_msg i j k A B C)).
Proof.
  destruct w as [|c w']; [intros HA; destruct i, j; simpl in HA; destruct HA|].
  destruct (cykAlgorithm_trace_inv (c :: w') g ltac:(discriminate)) as [[_ H2] ->]; simpl t_steps; simpl t_table.
  intros HA.
  destruct (Nat.ltb_spec j (List.length (nth i (materialize (List.length (c :: w')) (ttbl (tcyk_fill (c :: w') g empty_tstate))) []))) as [Hj|Hj];
    [|rewrite nth_overflow in HA by exact Hj; destruct HA].
  rewrite materialize_row_length in Hj.
  destruct (Nat.ltb_spec i (List.length (c :: w'))) as [Hi|Hi]; [|lia].
  rewrite nth_materialize in HA by assumption; exact (H2 i j A HA).
Qed.

Lemma table_entries_announced_witness :
  In (js "S") (nth 1 (nth 0 (t_table (cykAlgorithm (split_chars (js "ab")) exampleGrammar)) []) []) /\
  exists m, In m (t_steps (cykAlgorithm (split_chars (js "ab")) exampleGrammar)) /\
    ((0 = 1 /\ m = diag_msg 0 (nth 0 (split_chars (js "ab")) []) (js "S")) \/
     (exists k B C, m = bin_msg 0 1 k (js "S") B C)).
Proof.
  assert (H : In (js "S") (nth 1 (nth 0 (t_table (cykAlgorithm (split_chars (js "ab")) exampleGrammar)) []) []))
    by (vm_compute; left; reflexivity).
  exact (conj H (table_entries_announced _ _ 0 1 _ H)).
Defined.

(** ** The result of [handleCheckGrammar] as rendered by [renderTable] *)

Lemma cykAlgorithm_table_shape w g :
  List.length (t_table (cykAlgorithm w g)) = List.length w /\
  (forall row, In row (t_table (cykAlgorithm w g)) -> List.length row = List.length w).
Proof.
  unfold cykAlgorithm; destruct (Nat.eqb_spec (List.length w) 0) as [E|_]; simpl.
  - rewrite E; split; [reflexivity|intros ? []].
  - unfold materialize; rewrite length_map, length_seq; split; [reflexivity|].
    intros row Hrow; apply in_map_iff in Hrow as [i [<- _]]; rewrite length_map, length_seq; reflexivity.
Qed.

(** For the predefined or a custom grammar, a result of
    [handleCheckGrammar] on an input string of length [n] has an n-by-n
    table; the empty input gives [{accepted: false, table: [], steps: []}],
    and [renderTable] shows nothing exactly for the empty input. *)
Theorem check_result_render useCustom gi input r :
  handleCheckGrammar useCustom gi input = Some r ->
  List.length (t_table r) = List.length input /\
  (forall row, In row (t_table r) -> List.length row = List.length input) /\
  (input = [] -> r = mkTrace false [] []) /\
  (renderTable (t_table r) = None <-> input = []).
Proof.
  unfold handleCheckGrammar.
  destruct (if useCustom then parseGrammar gi else Some exampleGrammar) as [g|]; [|discriminate].
  intros H; injection H as <-.
  destruct (cykAlgorithm_table_shape (split_chars input) g) as [H1 H2].
  assert (Hl : List.length (split_chars input) = List.length input) by apply length_map.
  rewrite Hl in H1, H2.
  split; [exact H1|split; [exact H2|split]].
  - intros ->; reflexivity.
  - unfold renderTable; rewrite H1.
    destruct input as [|c input]; simpl; split; intros E; try reflexivity; discriminate.
Qed.

Lemma check_result_render_witness :
  handleCheckGrammar true (mkGInput (js "S,A,B") (js "a,b") (js "S") (js "S->AB|BA
A->a
B->b")) (js "ab") =
    Some (cykAlgorithm (split_chars (js "ab"))
      (mkGrammar [js "S"; js "A"; js "B"] [js "a"; js "b"] (js "S")
        [(js "S", [[js "A"; js "B"]; [js "B"; js "A"]]); (js "A", [[js "a"]]); (js "B", [[js "b"]])])) /\
  List.length (t_table (cykAlgorithm (split_chars (js "ab"))
      (mkGrammar [js "S"; js "A"; js "B"] [js "a"; js "b"] (js "S")
        [(js "S", [[js "A"; js "B"]; [js "B"; js "A"]]); (js "A", [[js "a"]]); (js "B", [[js "b"]])]))) =
    List.length (js "ab").
Proof.
  assert (H : handleCheckGrammar true (mkGInput (js "S,A,B") (js "a,b") (js "S") (js "S->AB|BA
A->a
B->b")) (js "ab") =
    Some (cykAlgorithm (split_chars (js "ab"))
      (mkGrammar [js "S"; js "A"; js "B"] [js "a"; js "b"] (js "S")
        [(js "S", [[js "A"; js "B"]; [js "B"; js "A"]]); (js "A", [[js "a"]]); (js "B", [[js "b"]])])))
    by (vm_compute; reflexivity).
  exact (conj H (proj1 (check_result_render _ _ _ _ H))).
Defined.

(** ** Degenerate inputs and grammars *)

Lemma no_unit_rejects g :
  (forall A p, In p (get_rules g A) -> List.length p <> 1) ->
  forall u, ~ derives g (startSymbol g) u.
Proof.
  intros H u Hd.
  destruct u as [|t u]; [apply derives_nonempty in Hd; simpl in Hd; lia|].
  destruct (derives_terminals _ _ _ Hd t (or_introl eq_refl)) as [B HB].
  exact (H B [t] HB eq_refl).
Qed.

(** C8: recognition never fails.  On the empty token sequence both
    recognizers return [accepted = false] with empty table, backpointers and
    steps.  A grammar whose start symbol derives no string (an unparseable
    grammar) yields [accepted = false] in both recognizers for every input;
    this is the case of every empty grammar, one where no variable has a
    one-symbol production: no rules at all, or only rule keys with no
    productions, as compiled from [S ->] or [S -> x y z].  A text none of
    whose lines has an arrow marker compiles to a grammar without rules.
    Both recognizers are total functions of their input. *)
Theorem recognition_degenerate_inputs :
  (forall g, cykWithPointers [] g = mkResult false [] []
             /\ cykAlgorithm [] g = mkTrace false [] []) /\
  (forall g w, (forall u, ~ derives g (startSymbol g) u) ->
     accepted (cykWithPointers w g) = false /\ t_accepted (cykAlgorithm w g) = false) /\
  (forall g w, (forall A p, In p (get_rules g A) -> List.length p <> 1) ->
     accepted (cykWithPointers w g) = false /\ t_accepted (cykAlgorithm w g) = false) /\
  (forall text w,
     Forall (fun l => index_of arrow_ascii l = None /\ index_of [uarrow] l = None)
            (grammar_lines text) ->
     exists g, parseGrammarFromText text = Some g /\ rules g = [] /\
       accepted (cykWithPointers w g) = false /\ t_accepted (cykAlgorithm w g) = false).
Proof.
  assert (Hnd : forall g w, (forall u, ~ derives g (startSymbol g) u) ->
     accepted (cykWithPointers w g) = false /\ t_accepted (cykAlgorithm w g) = false).
  { intros g w Hn; rewrite t_accepted_eq.
    destruct (accepted (cykWithPointers w g)) eqn:Ea; [|split; reflexivity].
    apply cyk_accepts_iff in Ea; destruct (Hn w Ea). }
  assert (Hnu : forall g w, (forall A p, In p (get_rules g A) -> List.length p <> 1) ->
     accepted (cykWithPointers w g) = false /\ t_accepted (cykAlgorithm w g) = false).
  { intros g w H; apply Hnd; apply (no_unit_rejects g H). }
  split; [intros g; split; reflexivity|].
  split; [exact Hnd|].
  split; [exact Hnu|].
  intros text w H.
  unfold parseGrammarFromText; rewrite process_lines_skip by exact H.
  eexists; split; [reflexivity|]; split; [reflexivity|]; apply Hnu.
  intros A p Hp; unfold get_rules in Hp; destruct Hp.
Qed.

Lemma recognition_degenerate_inputs_witness :
  parseGrammarFromText (js "S -> x y z") = Some (mkGrammar [js "S"] [] (js "S") [(js "S", [])]) /\
  (accepted (cykWithPointers [js "x"] (mkGrammar [js "S"] [] (js "S") [(js "S", [])])) = false
   /\ t_accepted (cykAlgorithm [js "x"] (mkGrammar [js "S"] [] (js "S") [(js "S", [])])) = false) /\
  (accepted (cykWithPointers [js "a"; js "b"] (mkGrammar [js "S"; js "A"] [] (js "S") [(js "S", [[js "A"; js "A"]])])) = false
   /\ t_accepted (cykAlgorithm [js "a"; js "b"] (mkGrammar [js "S"; js "A"] [] (js "S") [(js "S", [[js "A"; js "A"]])])) = false) /\
  (exists g, parseGrammarFromText (js "no rules here") = Some g /\ rules g = [] /\
     accepted (cykWithPointers [js "a"] g) = false /\
     t_accepted (cykAlgorithm [js "a"] g) = false).
Proof.
  destruct recognition_degenerate_inputs as [_ [Hnd [Hnu Htxt]]].
  split; [vm_compute; reflexivity|].
  split; [|split].
  - apply Hnu; intros A p Hp; unfold get_rules in Hp; cbn [rules assoc_get] in Hp.
    destruct (jeqb A (js "S")); destruct Hp.
  - apply Hnd; intros u Hd.
    inversion Hd as [A t Hp|A B C u1 v Hp Hu Hv]; subst.
    + vm_compute in Hp; destruct Hp as [Hp|[]]; discriminate.
    + vm_compute in Hp; destruct Hp as [Hp|[]]; injection Hp as <- <-.
      inversion Hu as [A' t Hp'|A' B' C' u2 v2 Hp' _ _]; subst;
        vm_compute in Hp'; destruct Hp'.
  - apply Htxt; vm_compute; repeat constructor.
Defined.
